(** * tracelib.h: a shallow embedding of the trace library and its framing protocol

    The library keeps its whole state in namespace-level statics
    ([traceActive], [dataVector], [traceFile], [stringBuffer], [clockInit],
    [startTime]).  They are gathered here in one record that every
    operation threads through.  What the C++ standard library does behind
    the calls the source makes is written out next to each use:

    - [std::ofstream]: [open] on a stream whose file buffer is already open
      fails and sets [failbit]; a successful [open] clears the error state; an
      insertion on a stream that is not [good()] writes nothing; an insertion
      on a stream without an open file fails and sets [badbit];
    - [std::vector]: [reserve], [clear] (capacity is kept), [push_back]
      (grows when full), [back] on an empty vector is undefined behaviour;
    - [std::string::pop_back] on an empty string is undefined behaviour;
    - [sprintf] into [char stringBuffer[1000]] is undefined behaviour once the
      text and its terminating NUL no longer fit.

    Values the environment supplies are inputs of the calls: the reading of
    [Clock::now()] (in clock ticks, nanoseconds for the usual
    [high_resolution_clock]) and whether the operating system lets the file
    be opened. *)

From Stdlib Require Import String Ascii List ZArith Lia Bool Sorted.
From Stdlib Require Import Decimal DecimalFacts DecimalPos DecimalN DecimalZ DecimalString.
Import ListNotations.
Local Open Scope string_scope.
Local Open Scope Z_scope.

Set Implicit Arguments.

(** ** Outcomes *)

(** A call either runs to completion or has undefined behaviour. *)
Inductive outcome (A : Type) : Type :=
| Done (a : A)
| Undefined.

Arguments Done {A} a.
Arguments Undefined {A}.

Definition bind {A B : Type} (o : outcome A) (k : A -> outcome B) : outcome B :=
  match o with
  | Done a => k a
  | Undefined => Undefined
  end.

Notation "x <- o ;; k" := (bind o (fun x => k))
  (at level 61, o at next level, right associativity).

(** ** Characters and text pieces of the format strings *)

Definition DQ : string := String "034"%char EmptyString.
Definition NL : string := String "010"%char EmptyString.

(** [\"%s\"] *)
Definition quoted (s : string) : string := DQ ++ s ++ DQ.

(** The separator that ends every record: [",\n"]. *)
Definition SEP : string := "," ++ NL.

(** ** Integer conversions *)

(** [int(x)] for a wider integer [x]: reduction modulo 2^32 to the signed
    range, as g++ does (and as the language requires since C++20). *)
Definition cast_int (z : Z) : Z := (z + 2 ^ 31) mod 2 ^ 32 - 2 ^ 31.

(** [(uintptr_t)p] on a 64-bit target. *)
Definition cast_uintptr (z : Z) : Z := z mod 2 ^ 64.

(** [%i] and [%PRIuPTR]: decimal digits, a leading [-] for a negative value. *)
Definition render_int (z : Z) : string := NilZero.string_of_int (Z.to_int z).

(** [duration_cast<microseconds>(d).count()] for a duration of [d] ticks of
    one nanosecond: division by 1000 truncated toward zero. *)
Definition microseconds (d : Z) : Z := Z.quot d 1000.

(** ** The state *)

(** [std::ofstream]: the name of the file the buffer is attached to, if any,
    and whether [failbit] or [badbit] is set. *)
Record ofstream : Type := mkStream {
  sb_file : option string;
  ios_fail : bool
}.

(** The files of the host, by name. *)
Definition filesystem : Type := string -> option string.

Definition file_content (d : filesystem) (p : string) : string :=
  match d p with
  | Some c => c
  | None => EmptyString
  end.

Definition file_truncate (p : string) (d : filesystem) : filesystem :=
  fun q => if String.eqb q p then Some EmptyString else d q.

Definition file_append (p : string) (s : string) (d : filesystem) : filesystem :=
  fun q => if String.eqb q p then Some (file_content d p ++ s) else d q.

Record state : Type := mkState {
  traceActive : bool;
  dataVector : list string;
  vcapacity : nat;              (* dataVector.capacity() *)
  traceFile : ofstream;
  stringBuffer : string;
  clockInit : bool;
  startTime : Z;
  disk : filesystem;
  cerr : string
}.

Definition PID_VALUE : Z := 1.
Definition TID_VALUE : Z := 1.

(** [sizeof stringBuffer] *)
Definition STRING_BUFFER_SIZE : nat := 1000.

(** The state a process starts in. *)
Definition initial : state :=
  {| traceActive := false;
     dataVector := [];
     vcapacity := 0;
     traceFile := mkStream None false;
     stringBuffer := EmptyString;
     clockInit := false;
     startTime := 0;
     disk := fun _ => None;
     cerr := EmptyString |}.

Definition set_traceActive (b : bool) (st : state) : state :=
  mkState b (dataVector st) (vcapacity st) (traceFile st) (stringBuffer st)
          (clockInit st) (startTime st) (disk st) (cerr st).

Definition set_dataVector (v : list string) (st : state) : state :=
  mkState (traceActive st) v (vcapacity st) (traceFile st) (stringBuffer st)
          (clockInit st) (startTime st) (disk st) (cerr st).

Definition set_vcapacity (n : nat) (st : state) : state :=
  mkState (traceActive st) (dataVector st) n (traceFile st) (stringBuffer st)
          (clockInit st) (startTime st) (disk st) (cerr st).

Definition set_traceFile (f : ofstream) (st : state) : state :=
  mkState (traceActive st) (dataVector st) (vcapacity st) f (stringBuffer st)
          (clockInit st) (startTime st) (disk st) (cerr st).

Definition set_stringBuffer (s : string) (st : state) : state :=
  mkState (traceActive st) (dataVector st) (vcapacity st) (traceFile st) s
          (clockInit st) (startTime st) (disk st) (cerr st).

Definition set_clock (t : Z) (st : state) : state :=
  mkState (traceActive st) (dataVector st) (vcapacity st) (traceFile st)
          (stringBuffer st) true t (disk st) (cerr st).

Definition set_disk (d : filesystem) (st : state) : state :=
  mkState (traceActive st) (dataVector st) (vcapacity st) (traceFile st)
          (stringBuffer st) (clockInit st) (startTime st) d (cerr st).

(** [std::cerr << s] *)
Definition report (s : string) (st : state) : state :=
  mkState (traceActive st) (dataVector st) (vcapacity st) (traceFile st)
          (stringBuffer st) (clockInit st) (startTime st) (disk st)
          (cerr st ++ s).

(** ** The stream *)

(** [traceFile.is_open()] *)
Definition is_open (st : state) : bool :=
  match sb_file (traceFile st) with
  | Some _ => true
  | None => false
  end.

(** [traceFile.open(filename)].  The file buffer refuses to open when it is
    already open, and the stream then sets [failbit] and stays attached to the
    old file.  Otherwise the operating system decides ([os_ok]); on success
    the file is created or truncated and the error state is cleared. *)
Definition stream_open (filename : string) (os_ok : bool) (st : state) : state :=
  match sb_file (traceFile st) with
  | Some p => set_traceFile (mkStream (Some p) true) st
  | None =>
      if os_ok
      then set_disk (file_truncate filename (disk st))
             (set_traceFile (mkStream (Some filename) false) st)
      else set_traceFile (mkStream None true) st
  end.

(** [traceFile << s].  Nothing is written unless the stream is [good()];
    with no file attached the characters are lost and [badbit] is set. *)
Definition stream_put (s : string) (st : state) : state :=
  if ios_fail (traceFile st) then st
  else match sb_file (traceFile st) with
       | Some p => set_disk (file_append p s (disk st)) st
       | None =>
           match s with
           | EmptyString => st
           | String _ _ => set_traceFile (mkStream None true) st
           end
       end.

(** [traceFile.close()]: closing a stream that has no file sets [failbit]. *)
Definition stream_close (st : state) : state :=
  match sb_file (traceFile st) with
  | Some _ => set_traceFile (mkStream None (ios_fail (traceFile st))) st
  | None => set_traceFile (mkStream None true) st
  end.

(** [for(auto const& value : v) traceFile << value;] *)
Definition put_all (v : list string) (st : state) : state :=
  fold_left (fun s value => stream_put value s) v st.

(** All the text such a loop carries. *)
Definition concat_strings (v : list string) : string :=
  fold_right String.append EmptyString v.

(** ** The vector and the scratch buffer *)

(** The capacity after a [push_back] on a full vector (libstdc++ doubles). *)
Definition grow (n : nat) : nat := Nat.max 1 (2 * n).

(** [dataVector.reserve(n)] *)
Definition reserve (n : nat) (st : state) : state :=
  set_vcapacity (Nat.max (vcapacity st) n) st.

(** [dataVector.push_back(stringBuffer)] *)
Definition push_back (st : state) : state :=
  let st' := if Nat.eqb (length (dataVector st)) (vcapacity st)
             then set_vcapacity (grow (vcapacity st)) st else st in
  set_dataVector (dataVector st' ++ [stringBuffer st']) st'.

(** [s.pop_back()] *)
Fixpoint string_pop_back (s : string) : outcome string :=
  match s with
  | EmptyString => Undefined
  | String c EmptyString => Done EmptyString
  | String c s' => r <- string_pop_back s' ;; Done (String c r)
  end.

(** [v.back().pop_back()] *)
Fixpoint back_pop_back (v : list string) : outcome (list string) :=
  match v with
  | [] => Undefined
  | [s] => s' <- string_pop_back s ;; Done [s']
  | s :: v' => v'' <- back_pop_back v' ;; Done (s :: v'')
  end.

(** Whether a text and its NUL fit the scratch buffer. *)
Definition fits (s : string) : bool :=
  Nat.ltb (String.length s) STRING_BUFFER_SIZE.

(** [sprintf(stringBuffer, ...)] producing the text [s]. *)
Definition sprintf (s : string) (st : state) : outcome state :=
  if fits s then Done (set_stringBuffer s st) else Undefined.

(** [sprintf(stringBuffer + strlen(stringBuffer), ...)] producing [s]. *)
Definition sprintf_cat (s : string) (st : state) : outcome state :=
  sprintf (stringBuffer st ++ s) st.

(** The timestamp every record carries:
    [int(duration_cast<microseconds>(Clock::now() - startTime).count())]. *)
Definition timestamp (st : state) (now : Z) : Z :=
  cast_int (microseconds (now - startTime st)).

(** ** The operations of the library *)

Section Tracelib.

(** [const int TRACE_MAX = 10000;] in the source.  Nothing below depends on
    the value, so it is left open. *)
Variable TRACE_MAX : nat.

Definition open_error (filename : string) : string :=
  "Error: Unable to open file " ++ DQ ++ filename ++ DQ
    ++ " for trace output." ++ NL.

(** [bool trace_start(const char* filename)] *)
Definition trace_start (filename : string) (os_ok : bool) (now : Z)
    (st : state) : state * bool :=
  let st1 := stream_open filename os_ok st in
  if is_open st1 then
    let st2 := stream_put ("[" ++ NL) (reserve TRACE_MAX st1) in
    let st3 := if clockInit st2 then st2 else set_clock now st2 in
    (set_traceActive true st3, true)
  else (report (open_error filename) st1, false).

(** [void trace_flush()] *)
Definition trace_flush (st : state) : state :=
  set_dataVector [] (put_all (dataVector st) st).

(** [void trace_end()] *)
Definition trace_end (st : state) : outcome state :=
  v1 <- back_pop_back (dataVector st) ;;
  v2 <- back_pop_back v1 ;;
  let st1 := trace_flush (set_dataVector v2 st) in
  let st2 := stream_put (NL ++ "]") st1 in
  Done (set_traceActive false (stream_close st2)).

(** [if( dataVector.size() == dataVector.capacity() ) trace_flush();] *)
Definition flush_if_full (st : state) : state :=
  if Nat.eqb (length (dataVector st)) (vcapacity st)
  then trace_flush st else st.

(** The part of the format strings that all records share:
    [\"pid\": %i, \"tid\": %i] and [\"ts\": %i]. *)
Definition fmt_pid_tid (tid : Z) : string :=
  quoted "pid" ++ ": " ++ render_int PID_VALUE ++ ", "
    ++ quoted "tid" ++ ": " ++ render_int (cast_int tid).

Definition fmt_ts (ts : Z) : string :=
  quoted "ts" ++ ": " ++ render_int ts.

(** [{\"name\": \"%s\", \"cat\": \"%s\", \"ph\": \"B\", \"pid\": %i, \"tid\": %i, \"ts\": %i] *)
Definition fmt_begin (name categories : string) (tid ts : Z) : string :=
  "{" ++ quoted "name" ++ ": " ++ quoted name ++ ", "
    ++ quoted "cat" ++ ": " ++ quoted categories ++ ", "
    ++ quoted "ph" ++ ": " ++ quoted "B" ++ ", "
    ++ fmt_pid_tid tid ++ ", " ++ fmt_ts ts.

(** [{\"ph\": \"E\", \"pid\": %i, \"tid\": %i, \"ts\": %i] *)
Definition fmt_end (tid ts : Z) : string :=
  "{" ++ quoted "ph" ++ ": " ++ quoted "E" ++ ", "
    ++ fmt_pid_tid tid ++ ", " ++ fmt_ts ts.

(** [{\"name\": \"%s\", \"ph\": \"N\", \"pid\": %i, \"tid\": %i, \"id\": %PRIuPTR, \"ts\": %i]
    with the phase letter [ph]. *)
Definition fmt_object (ph name : string) (obj_pointer tid ts : Z) : string :=
  "{" ++ quoted "name" ++ ": " ++ quoted name ++ ", "
    ++ quoted "ph" ++ ": " ++ quoted ph ++ ", "
    ++ fmt_pid_tid tid ++ ", "
    ++ quoted "id" ++ ": " ++ render_int (cast_uintptr obj_pointer) ++ ", "
    ++ fmt_ts ts.

(** [{\"name\": \"%s\", \"ph\": \"i\", \"pid\": %i, \"tid\": %i, \"s\": \"g\", \"ts\": %i] *)
Definition fmt_instant (name : string) (tid ts : Z) : string :=
  "{" ++ quoted "name" ++ ": " ++ quoted name ++ ", "
    ++ quoted "ph" ++ ": " ++ quoted "i" ++ ", "
    ++ fmt_pid_tid tid ++ ", "
    ++ quoted "s" ++ ": " ++ quoted "g" ++ ", "
    ++ fmt_ts ts.

(** [{\"name\": \"%s\", \"ph\": \"C\", \"pid\": %i, \"tid\": %i, \"ts\": %i] *)
Definition fmt_counter (name : string) (tid ts : Z) : string :=
  "{" ++ quoted "name" ++ ": " ++ quoted name ++ ", "
    ++ quoted "ph" ++ ": " ++ quoted "C" ++ ", "
    ++ fmt_pid_tid tid ++ ", " ++ fmt_ts ts.

(** The end of a record without arguments, [},\n], the opening of the
    argument object, [, \"args\": { ], and its end, [} },\n]. *)
Definition CLOSE : string := "}" ++ SEP.
Definition ARGS_OPEN : string := ", " ++ quoted "args" ++ ": { ".
Definition ARGS_CLOSE : string := "} }" ++ SEP.

(** The loop over the two argument lists: [\"%s\": %s] for each pair and
    [, ] after every pair but the last.  Reading a value past the end of
    its list cannot happen when the lists have the same size. *)
Fixpoint args_loop (names values : list string) (st : state) : outcome state :=
  match names, values with
  | [], _ => Done st
  | n :: names', v :: values' =>
      st1 <- sprintf_cat (quoted n ++ ": " ++ v) st ;;
      st2 <- match names' with
             | [] => Done st1
             | _ :: _ => sprintf_cat ", " st1
             end ;;
      args_loop names' values' st2
  | _ :: _, [] => Undefined
  end.

(** The tail every function with arguments shares: the loop, the closing
    text and the [push_back]. *)
Definition finish_args (names values : list string) (st : state) : outcome state :=
  st1 <- args_loop names values st ;;
  st2 <- sprintf_cat ARGS_CLOSE st1 ;;
  Done (push_back st2).

(** [void trace_event_start(name, categories, tid)] *)
Definition trace_event_start (name categories : string) (tid now : Z)
    (st : state) : outcome state :=
  if negb (traceActive st) then Done st else
  let st1 := flush_if_full st in
  st2 <- sprintf (fmt_begin name categories tid (timestamp st1 now) ++ CLOSE) st1 ;;
  Done (push_back st2).

Definition mismatch_begin (name : string) : string :=
  "Error: Argument lists for " ++ name
    ++ " in trace_event_start are not the same size; ignoring them." ++ NL.

(** [void trace_event_start(name, categories, argumentNames, argumentValues, tid)].
    On lists of different sizes it calls the overload above without [tid],
    which therefore takes its default [TID_VALUE]. *)
Definition trace_event_start_args (name categories : string)
    (argumentNames argumentValues : list string) (tid now : Z)
    (st : state) : outcome state :=
  if negb (traceActive st) then Done st else
  let st1 := flush_if_full st in
  if negb (Nat.eqb (length argumentNames) (length argumentValues))
  then trace_event_start name categories TID_VALUE now
         (report (mismatch_begin name) st1)
  else
    st2 <- sprintf (fmt_begin name categories tid (timestamp st1 now) ++ ARGS_OPEN) st1 ;;
    finish_args argumentNames argumentValues st2.

(** [void trace_event_end(tid)] *)
Definition trace_event_end (tid now : Z) (st : state) : outcome state :=
  if negb (traceActive st) then Done st else
  let st1 := flush_if_full st in
  st2 <- sprintf (fmt_end tid (timestamp st1 now) ++ CLOSE) st1 ;;
  Done (push_back st2).

Definition mismatch_end : string :=
  "Error: Argument lists in trace_event_end are not the same size; ignoring them."
    ++ NL.

(** [void trace_event_end(argumentNames, argumentValues, tid)] *)
Definition trace_event_end_args (argumentNames argumentValues : list string)
    (tid now : Z) (st : state) : outcome state :=
  if negb (traceActive st) then Done st else
  let st1 := flush_if_full st in
  if negb (Nat.eqb (length argumentNames) (length argumentValues))
  then trace_event_end TID_VALUE now (report mismatch_end st1)
  else
    st2 <- sprintf (fmt_end tid (timestamp st1 now) ++ ARGS_OPEN) st1 ;;
    finish_args argumentNames argumentValues st2.

(** [void trace_object_new(name, obj_pointer, tid)] *)
Definition trace_object_new (name : string) (obj_pointer tid now : Z)
    (st : state) : outcome state :=
  if negb (traceActive st) then Done st else
  let st1 := flush_if_full st in
  st2 <- sprintf (fmt_object "N" name obj_pointer tid (timestamp st1 now) ++ CLOSE) st1 ;;
  Done (push_back st2).

(** [void trace_object_gone(name, obj_pointer, tid)] *)
Definition trace_object_gone (name : string) (obj_pointer tid now : Z)
    (st : state) : outcome state :=
  if negb (traceActive st) then Done st else
  let st1 := flush_if_full st in
  st2 <- sprintf (fmt_object "D" name obj_pointer tid (timestamp st1 now) ++ CLOSE) st1 ;;
  Done (push_back st2).

(** [void trace_instant_global(name, tid)] *)
Definition trace_instant_global (name : string) (tid now : Z)
    (st : state) : outcome state :=
  if negb (traceActive st) then Done st else
  let st1 := flush_if_full st in
  st2 <- sprintf (fmt_instant name tid (timestamp st1 now) ++ CLOSE) st1 ;;
  Done (push_back st2).

Definition mismatch_counter (name : string) : string :=
  "Error: Argument lists for " ++ name
    ++ " in trace_counter are not the same size; ignoring this event." ++ NL.

(** [void trace_counter(name, key, value, tid)].  On lists of different
    sizes the message is all it does. *)
Definition trace_counter (name : string) (key value : list string)
    (tid now : Z) (st : state) : outcome state :=
  if negb (traceActive st) then Done st else
  let st1 := flush_if_full st in
  if negb (Nat.eqb (length key) (length value))
  then Done (report (mismatch_counter name) st1)
  else
    st2 <- sprintf (fmt_counter name tid (timestamp st1 now) ++ ARGS_OPEN) st1 ;;
    finish_args key value st2.

(** ** Programs that use the library *)

(** One call of the library, with what the environment answers to it. *)
Inductive call : Type :=
| Start (filename : string) (os_ok : bool) (now : Z)
| Flush
| End
| EventStart (name categories : string) (tid now : Z)
| EventStartArgs (name categories : string) (names values : list string) (tid now : Z)
| EventEnd (tid now : Z)
| EventEndArgs (names values : list string) (tid now : Z)
| ObjectNew (name : string) (obj_pointer tid now : Z)
| ObjectGone (name : string) (obj_pointer tid now : Z)
| InstantGlobal (name : string) (tid now : Z)
| Counter (name : string) (key value : list string) (tid now : Z).

Definition exec (c : call) (st : state) : outcome state :=
  match c with
  | Start f ok now => Done (fst (trace_start f ok now st))
  | Flush => Done (trace_flush st)
  | End => trace_end st
  | EventStart n c tid now => trace_event_start n c tid now st
  | EventStartArgs n c ns vs tid now => trace_event_start_args n c ns vs tid now st
  | EventEnd tid now => trace_event_end tid now st
  | EventEndArgs ns vs tid now => trace_event_end_args ns vs tid now st
  | ObjectNew n p tid now => trace_object_new n p tid now st
  | ObjectGone n p tid now => trace_object_gone n p tid now st
  | InstantGlobal n tid now => trace_instant_global n tid now st
  | Counter n k v tid now => trace_counter n k v tid now st
  end.

(** A single-threaded sequence of calls. *)
Fixpoint run (cs : list call) (st : state) : outcome state :=
  match cs with
  | [] => Done st
  | c :: cs' => st' <- exec c st ;; run cs' st'
  end.

End Tracelib.

(** The value the source gives to [TRACE_MAX]. *)
Definition SOURCE_TRACE_MAX : nat := 100 * 100.

(** The state a completed call left. *)
Definition result (o : outcome state) : state :=
  match o with
  | Done st => st
  | Undefined => initial
  end.

(** ** What the produced file must be: a JSON array of objects *)

(** A recogniser for JSON text (RFC 8259) that reads the bytes one at a
    time, with a stack of the arrays and objects that are still open.  The
    outermost value must be an array and every element of that array must
    be an object.  It is independent of the code above. *)
Module Json.

Inductive frame : Type :=
| FTop   (* the outermost array: its elements must be objects *)
| FArr   (* an inner array *)
| FObj.  (* an object *)

Inductive mode : Type :=
| MDoc                     (* before the outermost opening bracket *)
| MElemFirst               (* after an opening bracket: a value or the closing bracket *)
| MVal                     (* a value must follow *)
| MMemFirst                (* after an opening brace: a key or the closing brace *)
| MKey                     (* after a comma in an object: a key must follow *)
| MColon                   (* after a key: a colon *)
| MAfter                   (* after a value: a comma or the closer of the enclosing frame *)
| MStr (key : bool)        (* inside a string *)
| MEsc (key : bool)        (* after a backslash *)
| MHex (key : bool) (n : nat) (* inside a \u escape, [S n] hexadecimal digits to go *)
| MMinus                   (* after the sign of a number *)
| MZero                    (* after a leading zero *)
| MInt                     (* inside the integer part *)
| MFrac0                   (* after the decimal point *)
| MFrac                    (* inside the fraction *)
| MExp0                    (* after the exponent letter *)
| MExpSign                 (* after the sign of the exponent *)
| MExp                     (* inside the exponent *)
| MLit (rest : string).    (* inside true, false or null: the letters to go *)

Inductive action : Type :=
| Keep
| Push (f : frame)
| Pop.

Definition config : Type := (mode * list frame)%type.

Definition code (c : ascii) : nat := nat_of_ascii c.

Definition is_ws (c : ascii) : bool :=
  let n := code c in
  Nat.eqb n 32 || Nat.eqb n 9 || Nat.eqb n 10 || Nat.eqb n 13.

Definition is_digit (c : ascii) : bool :=
  let n := code c in Nat.leb 48 n && Nat.leb n 57.

Definition is_hex (c : ascii) : bool :=
  let n := code c in
  (Nat.leb 48 n && Nat.leb n 57) || (Nat.leb 65 n && Nat.leb n 70)
  || (Nat.leb 97 n && Nat.leb n 102).

Definition is_exp (c : ascii) : bool :=
  Ascii.eqb c "e" || Ascii.eqb c "E".

(** An unescaped character of a string: neither a control character, nor
    the quote, nor the backslash.  The recogniser does not decode UTF-8 and
    accepts ASCII only. *)
Definition is_plain (c : ascii) : bool :=
  let n := code c in
  Nat.leb 32 n && Nat.leb n 127 && negb (Nat.eqb n 34) && negb (Nat.eqb n 92).

Definition is_escape (c : ascii) : bool :=
  let n := code c in
  Nat.eqb n 34 || Nat.eqb n 92 || Nat.eqb n 47 || Ascii.eqb c "b"
  || Ascii.eqb c "f" || Ascii.eqb c "n" || Ascii.eqb c "r" || Ascii.eqb c "t".

(** The first character of a value. *)
Definition begin_value (top : option frame) (c : ascii) : option (mode * action) :=
  if Ascii.eqb c "{" then Some (MMemFirst, Push FObj)
  else match top with
       | Some FTop => None
       | _ =>
           if Ascii.eqb c "[" then Some (MElemFirst, Push FArr)
           else if Nat.eqb (code c) 34 then Some (MStr false, Keep)
           else if Ascii.eqb c "-" then Some (MMinus, Keep)
           else if Ascii.eqb c "0" then Some (MZero, Keep)
           else if is_digit c then Some (MInt, Keep)
           else if Ascii.eqb c "t" then Some (MLit "rue", Keep)
           else if Ascii.eqb c "f" then Some (MLit "alse", Keep)
           else if Ascii.eqb c "n" then Some (MLit "ull", Keep)
           else None
       end.

(** What may follow a complete value. *)
Definition after_value (top : option frame) (c : ascii) : option (mode * action) :=
  if is_ws c then Some (MAfter, Keep)
  else if Ascii.eqb c "," then
    match top with
    | Some FObj => Some (MKey, Keep)
    | Some _ => Some (MVal, Keep)
    | None => None
    end
  else if Ascii.eqb c "]" then
    match top with
    | Some FTop | Some FArr => Some (MAfter, Pop)
    | _ => None
    end
  else if Ascii.eqb c "}" then
    match top with
    | Some FObj => Some (MAfter, Pop)
    | _ => None
    end
  else None.

Definition delta (m : mode) (top : option frame) (c : ascii) : option (mode * action) :=
  match m with
  | MDoc =>
      if is_ws c then Some (MDoc, Keep)
      else if Ascii.eqb c "[" then Some (MElemFirst, Push FTop)
      else None
  | MElemFirst =>
      if is_ws c then Some (MElemFirst, Keep)
      else if Ascii.eqb c "]" then Some (MAfter, Pop)
      else begin_value top c
  | MVal =>
      if is_ws c then Some (MVal, Keep) else begin_value top c
  | MMemFirst =>
      if is_ws c then Some (MMemFirst, Keep)
      else if Ascii.eqb c "}" then Some (MAfter, Pop)
      else if Nat.eqb (code c) 34 then Some (MStr true, Keep)
      else None
  | MKey =>
      if is_ws c then Some (MKey, Keep)
      else if Nat.eqb (code c) 34 then Some (MStr true, Keep)
      else None
  | MColon =>
      if is_ws c then Some (MColon, Keep)
      else if Ascii.eqb c ":" then Some (MVal, Keep)
      else None
  | MAfter => after_value top c
  | MStr k =>
      if Nat.eqb (code c) 34 then Some (if k then MColon else MAfter, Keep)
      else if Nat.eqb (code c) 92 then Some (MEsc k, Keep)
      else if is_plain c then Some (MStr k, Keep)
      else None
  | MEsc k =>
      if is_escape c then Some (MStr k, Keep)
      else if Ascii.eqb c "u" then Some (MHex k 3, Keep)
      else None
  | MHex k n =>
      if is_hex c
      then Some (match n with O => MStr k | S n' => MHex k n' end, Keep)
      else None
  | MMinus =>
      if Ascii.eqb c "0" then Some (MZero, Keep)
      else if is_digit c then Some (MInt, Keep)
      else None
  | MZero =>
      if Ascii.eqb c "." then Some (MFrac0, Keep)
      else if is_exp c then Some (MExp0, Keep)
      else after_value top c
  | MInt =>
      if is_digit c then Some (MInt, Keep)
      else if Ascii.eqb c "." then Some (MFrac0, Keep)
      else if is_exp c then Some (MExp0, Keep)
      else after_value top c
  | MFrac0 =>
      if is_digit c then Some (MFrac, Keep) else None
  | MFrac =>
      if is_digit c then Some (MFrac, Keep)
      else if is_exp c then Some (MExp0, Keep)
      else after_value top c
  | MExp0 =>
      if Ascii.eqb c "+" || Ascii.eqb c "-" then Some (MExpSign, Keep)
      else if is_digit c then Some (MExp, Keep)
      else None
  | MExpSign =>
      if is_digit c then Some (MExp, Keep) else None
  | MExp =>
      if is_digit c then Some (MExp, Keep) else after_value top c
  | MLit rest =>
      match rest with
      | EmptyString => None
      | String a rest' =>
          if Ascii.eqb c a
          then Some (match rest' with
                     | EmptyString => MAfter
                     | String _ _ => MLit rest'
                     end, Keep)
          else None
      end
  end.

Definition apply_action (a : action) (stk : list frame) : option (list frame) :=
  match a with
  | Keep => Some stk
  | Push f => Some (f :: stk)
  | Pop => match stk with
           | [] => None
           | _ :: stk' => Some stk'
           end
  end.

Definition step (cfg : config) (c : ascii) : option config :=
  match delta (fst cfg) (hd_error (snd cfg)) c with
  | Some (m, a) =>
      match apply_action a (snd cfg) with
      | Some stk => Some (m, stk)
      | None => None
      end
  | None => None
  end.

(** Reading a text from a configuration; [None] once a byte is refused. *)
Fixpoint feed (o : option config) (s : string) : option config :=
  match s with
  | EmptyString => o
  | String c s' =>
      feed (match o with
            | Some cfg => step cfg c
            | None => None
            end) s'
  end.

(** The modes in which a value is complete. *)
Definition value_done (m : mode) : bool :=
  match m with
  | MAfter | MZero | MInt | MFrac | MExp => true
  | _ => false
  end.

(** The whole text is a JSON array whose elements are objects. *)
Definition array_of_objects (s : string) : bool :=
  match feed (Some (MDoc, [])) s with
  | Some (MAfter, []) => true
  | _ => false
  end.

(** The text is one JSON value (spaces around it allowed). *)
Definition value (s : string) : bool :=
  match feed (Some (MVal, [])) s with
  | Some (m, []) => value_done m
  | _ => false
  end.

(** The text can stand between two quotes as it is. *)
Fixpoint plain (s : string) : bool :=
  match s with
  | EmptyString => true
  | String c s' => is_plain c && plain s'
  end.

(** [is_value v]: inside an object, the text [v] is read as one value. *)
Definition is_value (v : string) : Prop :=
  forall stk,
    exists m,
      feed (Some (MVal, FObj :: stk)) v = Some (m, FObj :: stk)
      /\ value_done m = true.

(** [is_object o]: as an element of the outermost array, first or not,
    the text [o] is read as one object. *)
Definition is_object (o : string) : Prop :=
  forall m,
    m = MElemFirst \/ m = MVal ->
    feed (Some (m, [FTop])) o = Some (MAfter, [FTop]).

End Json.

(** ** The record a call appends, in closed form *)

(** The text the argument loop produces. *)
Fixpoint args_text (names values : list string) : string :=
  match names, values with
  | n :: names', v :: values' =>
      quoted n ++ ": " ++ v
        ++ match names' with
           | [] => EmptyString
           | _ :: _ => ", "
           end
        ++ args_text names' values'
  | _, _ => EmptyString
  end.

(** The timestamp of a reading [now] for the clock origin [origin]. *)
Definition ts_at (origin now : Z) : Z := cast_int (microseconds (now - origin)).

(** The JSON object a call contributes, without the separator, when the
    clock origin is [origin]; [None] for a call that appends nothing. *)
Definition object_of (origin : Z) (c : call) : option string :=
  match c with
  | Start _ _ _ | Flush | End => None
  | EventStart n cat tid now =>
      Some (fmt_begin n cat tid (ts_at origin now) ++ "}")
  | EventStartArgs n cat ns vs tid now =>
      if Nat.eqb (length ns) (length vs)
      then Some (fmt_begin n cat tid (ts_at origin now) ++ ARGS_OPEN
                   ++ args_text ns vs ++ "} }")
      else Some (fmt_begin n cat TID_VALUE (ts_at origin now) ++ "}")
  | EventEnd tid now =>
      Some (fmt_end tid (ts_at origin now) ++ "}")
  | EventEndArgs ns vs tid now =>
      if Nat.eqb (length ns) (length vs)
      then Some (fmt_end tid (ts_at origin now) ++ ARGS_OPEN
                   ++ args_text ns vs ++ "} }")
      else Some (fmt_end TID_VALUE (ts_at origin now) ++ "}")
  | ObjectNew n p tid now =>
      Some (fmt_object "N" n p tid (ts_at origin now) ++ "}")
  | ObjectGone n p tid now =>
      Some (fmt_object "D" n p tid (ts_at origin now) ++ "}")
  | InstantGlobal n tid now =>
      Some (fmt_instant n tid (ts_at origin now) ++ "}")
  | Counter n ks vs tid now =>
      if Nat.eqb (length ks) (length vs)
      then Some (fmt_counter n tid (ts_at origin now) ++ ARGS_OPEN
                   ++ args_text ks vs ++ "} }")
      else None
  end.

(** The objects a sequence of calls contributes, in call order. *)
Fixpoint objects_of (origin : Z) (cs : list call) : list string :=
  match cs with
  | [] => []
  | c :: cs' =>
      match object_of origin c with
      | Some o => o :: objects_of origin cs'
      | None => objects_of origin cs'
      end
  end.

(** Objects joined by the separator. *)
Fixpoint join_objects (os : list string) : string :=
  match os with
  | [] => EmptyString
  | [o] => o
  | o :: os' => o ++ SEP ++ join_objects os'
  end.

(** The document of a session with no capacity limit: nothing reaches the
    file before the end, where the opening bracket, all the records in
    the order of their calls, the last one without its separator, and the
    closing bracket are written. *)
Definition unbounded_document (origin : Z) (cs : list call) : string :=
  "[" ++ NL ++ join_objects (objects_of origin cs) ++ NL ++ "]".

(** ** Conditions on states and calls *)

(** No session is running: the state between sessions. *)
Definition idle (st : state) : Prop :=
  traceActive st = false /\ dataVector st = [] /\ sb_file (traceFile st) = None.

(** The clock origin of the session that a start at [t0] opens. *)
Definition session_origin (st : state) (t0 : Z) : Z :=
  if clockInit st then startTime st else t0.

(** The calls that emit an event. *)
Definition is_emit (c : call) : bool :=
  match c with
  | Start _ _ _ | Flush | End => false
  | _ => true
  end.

(** The record of the call, if it appends one, fits the scratch buffer. *)
Definition call_fits (origin : Z) (c : call) : bool :=
  match object_of origin c with
  | Some o => fits (o ++ SEP)
  | None => true
  end.

(** The texts the call passes can be printed into JSON as they are: names,
    categories and argument names need no escaping and every argument value
    is a JSON value.  Arguments that are ignored need nothing. *)
Definition call_json_safe (c : call) : bool :=
  match c with
  | Start _ _ _ | End => false
  | Flush => true
  | EventStart n cat _ _ => Json.plain n && Json.plain cat
  | EventStartArgs n cat ns vs _ _ =>
      Json.plain n && Json.plain cat
      && (negb (Nat.eqb (length ns) (length vs))
          || (forallb Json.plain ns && forallb Json.value vs))
  | EventEnd _ _ => true
  | EventEndArgs ns vs _ _ =>
      negb (Nat.eqb (length ns) (length vs))
      || (forallb Json.plain ns && forallb Json.value vs)
  | ObjectNew n _ _ _ | ObjectGone n _ _ _ | InstantGlobal n _ _ => Json.plain n
  | Counter n ks vs _ _ =>
      negb (Nat.eqb (length ks) (length vs))
      || (Json.plain n && forallb Json.plain ks && forallb Json.value vs)
  end.


(** The calls made inside a session: everything but start and end. *)
Definition in_session (c : call) : bool :=
  match c with
  | Start _ _ _ | End => false
  | _ => true
  end.

(** The call appends a record. *)
Definition appends (c : call) : bool :=
  match object_of 0 c with
  | Some _ => true
  | None => false
  end.

Definition add_sep (o : string) : string := o ++ SEP.

(** The records a sequence of calls appends, in call order. *)
Definition records_of (origin : Z) (cs : list call) : list string :=
  map add_sep (objects_of origin cs).

(** A session writing to [p] with clock origin [origin] has produced the
    records [recs] so far: those not in the vector any more are in the
    file, in order, after the opening bracket. *)
Definition session (p : string) (origin : Z) (recs : list string)
    (st : state) : Prop :=
  traceActive st = true
  /\ traceFile st = mkStream (Some p) false
  /\ startTime st = origin
  /\ exists written,
       recs = (written ++ dataVector st)%list
       /\ disk st p = Some ("[" ++ NL ++ concat_strings written).



(** The content of the file [p] after a run. *)
Definition file_after (p : string) (o : outcome state) : outcome (option string) :=
  match o with
  | Done st => Done (disk st p)
  | Undefined => Undefined
  end.

(** A record is in the vector after the calls [cs]. *)
Definition buffered_at_end (TRACE_MAX : nat) (cs : list call) (st : state)
  : Prop :=
  exists st1, run TRACE_MAX cs st = Done st1 /\ dataVector st1 <> [].

(** ** Relations between states *)

(** [quiet st st']: the session flag, the stream, the clock and the files
    are the same in both states. *)
Definition quiet (st st' : state) : Prop :=
  traceActive st' = traceActive st
  /\ traceFile st' = traceFile st
  /\ clockInit st' = clockInit st
  /\ startTime st' = startTime st
  /\ disk st' = disk st.

(** The clock is the same in both states. *)
Definition same_clock (st st' : state) : Prop :=
  clockInit st' = clockInit st /\ startTime st' = startTime st.

(** The state an emitting call works on: after the flush of a full vector
    when the session is active, the state as it is otherwise. *)
Definition settled (st : state) : state :=
  if traceActive st then flush_if_full st else st.

(** Every call but a start. *)
Definition not_start (c : call) : bool :=
  match c with
  | Start _ _ _ => false
  | _ => true
  end.

(** ** States and sessions used as examples *)

(** An inactive state whose vector still holds a record. *)
Definition stale : state :=
  mkState false ["lost"] 4 (mkStream None false) EmptyString false 0
          (fun _ => None) EmptyString.

(** The state after the first start of a process at the reading 5000, and
    calls that end its session and run a second one. *)
Definition started : state := fst (trace_start 4 "a.json" true 5000 initial).

Definition two_sessions : list call :=
  [InstantGlobal "e" 1 9000; End; Start "b.json" true 50000;
   InstantGlobal "f" 1 60000; End].

(** An active session on [a.json] with one record in the vector. *)
Definition one_buffered : state :=
  result (run 4 [Start "a.json" true 0; InstantGlobal "e0" 1 1000] initial).


(** The example of the specification: a capacity of four and six instants
    [e0] to [e5]. *)
Definition six_instants : list call :=
  [InstantGlobal "e0" 1 1000; InstantGlobal "e1" 1 2000;
   InstantGlobal "e2" 1 3000; InstantGlobal "e3" 1 4000;
   InstantGlobal "e4" 1 5000; InstantGlobal "e5" 1 6000].


(** A session with every kind of call, flushes by hand and, with a capacity
    of four, flushes of the full vector. *)
Definition mixed_session : list call :=
  [EventStart "main" "app" 1 1000;
   Flush;
   Counter "mem" ["rss"; "heap"] ["4096"; "[1, 2.5e3, null]"] 1 2000;
   EventStartArgs "load" "io" ["bytes"; "file"] ["42"] 7 2500;
   ObjectNew "Foo" 43981 1 3000;
   Counter "dropped" ["a"; "b"] ["1"] 1 3500;
   ObjectGone "Foo" 43981 1 4000;
   InstantGlobal "tick" 2 5000;
   EventEndArgs ["ok"; "who"] ["true"; quoted "me"] 7 6000;
   EventEndArgs [] [] 7 6500;
   EventEnd 1 7000].

(** ** Notions for the properties of the whole library *)

(** The record ends with the separator. *)
Definition ends_with_sep (r : string) : Prop := exists o, r = o ++ SEP.

(** The state an emitting call of an active session has reached when it
    starts to print: the full vector is flushed, and the calls that take
    argument lists have reported lists of different sizes. *)
Definition after_check (c : call) (st : state) : state :=
  match c with
  | EventStartArgs n _ ns vs _ _ =>
      if Nat.eqb (length ns) (length vs) then flush_if_full st
      else report (mismatch_begin n) (flush_if_full st)
  | EventEndArgs ns vs _ _ =>
      if Nat.eqb (length ns) (length vs) then flush_if_full st
      else report mismatch_end (flush_if_full st)
  | Counter n ks vs _ _ =>
      if Nat.eqb (length ks) (length vs) then flush_if_full st
      else report (mismatch_counter n) (flush_if_full st)
  | _ => flush_if_full st
  end.

(** What an emitting call of an active session writes to [cerr]. *)
Definition complaint (c : call) : string :=
  match c with
  | EventStartArgs n _ ns vs _ _ =>
      if Nat.eqb (length ns) (length vs) then EmptyString else mismatch_begin n
  | EventEndArgs ns vs _ _ =>
      if Nat.eqb (length ns) (length vs) then EmptyString else mismatch_end
  | Counter n ks vs _ _ =>
      if Nat.eqb (length ks) (length vs) then EmptyString
      else mismatch_counter n
  | _ => EmptyString
  end.

(** The states a process can be in: those that calls of the library, in any
    number and order, reach from the state the process starts in. *)
Definition reachable (TRACE_MAX : nat) (st : state) : Prop :=
  exists cs, run TRACE_MAX cs initial = Done st.

(** What holds between the session flag, the stream and the vector. *)
Definition well_formed (st : state) : Prop :=
  traceActive st = is_open st
  /\ (traceActive st = false -> dataVector st = [])
  /\ Forall ends_with_sep (dataVector st).

(** The vector has never outgrown what [reserve] gave it. *)
Definition within_capacity (TRACE_MAX : nat) (st : state) : Prop :=
  (length (dataVector st) <= vcapacity st)%nat
  /\ (vcapacity st = 0%nat \/ vcapacity st = TRACE_MAX)
  /\ (traceActive st = true -> vcapacity st = TRACE_MAX).

(** One call of each emitting function. *)
Definition every_emit : list call :=
  [EventStart "main" "app" 1 1000;
   EventStartArgs "load" "io" ["bytes"] ["42"] 1 2000;
   EventEnd 1 3000;
   EventEndArgs ["ok"] ["true"] 1 4000;
   ObjectNew "Foo" 43981 1 5000;
   ObjectGone "Foo" 43981 1 6000;
   InstantGlobal "tick" 1 7000;
   Counter "mem" ["rss"] ["4096"] 1 8000].

(** Every file but [p] is the same in both file systems. *)
Definition same_files_but (p : string) (d d' : filesystem) : Prop :=
  forall q, q <> p -> d' q = d q.

(** Reading back what [%i] printed. *)
Definition read_int (s : string) : option Z :=
  option_map Z.of_int (NilZero.int_of_string s).

(** A name of a thousand letters. *)
Definition long_name : string :=
  string_of_list_ascii (repeat "a"%char 1000).

(** Two sessions of a process, the second to the file [q]. *)
Definition both_sessions (p q : string) (t1 t2 : Z) (cs1 cs2 : list call)
  : list call :=
  (Start p true t1 :: cs1 ++ [End]) ++ (Start q true t2 :: cs2 ++ [End]).

(** Texts joined by a separator. *)
Fixpoint join_with (sep : string) (l : list string) : string :=
  match l with
  | [] => EmptyString
  | [x] => x
  | x :: l' => x ++ sep ++ join_with sep l'
  end.

(** One argument as it is printed: [\"name\": value]. *)
Definition pair_text (nv : string * string) : string :=
  quoted (fst nv) ++ ": " ++ snd nv.

(** * Properties *)

(** ** Strings and lists *)

Lemma append_assoc (a b c : string) : (a ++ b) ++ c = a ++ (b ++ c).
Proof. induction a as [|x a IH]; simpl; [reflexivity | now rewrite IH]. Qed.

Lemma append_nil_r (a : string) : a ++ EmptyString = a.
Proof. induction a as [|x a IH]; simpl; [reflexivity | now rewrite IH]. Qed.

Lemma length_append (a b : string) :
  String.length (a ++ b) = (String.length a + String.length b)%nat.
Proof. induction a as [|x a IH]; simpl; [reflexivity | now rewrite IH]. Qed.

Lemma concat_strings_app (v w : list string) :
  concat_strings (v ++ w)%list = concat_strings v ++ concat_strings w.
Proof.
  induction v as [|x v IH]; simpl; [reflexivity|].
  now rewrite IH, append_assoc.
Qed.

Lemma string_pop_back_last (s : string) (c : ascii) :
  string_pop_back (s ++ String c EmptyString) = Done s.
Proof.
  induction s as [|x s IH]; simpl; [reflexivity|].
  rewrite IH. destruct s; reflexivity.
Qed.

Lemma back_pop_back_last (v : list string) (s : string) (c : ascii) :
  back_pop_back (v ++ [(s ++ String c EmptyString)%string])%list
  = Done (v ++ [s])%list.
Proof.
  induction v as [|x v IH]; simpl.
  - now rewrite string_pop_back_last.
  - rewrite IH. destruct v; reflexivity.
Qed.

(** ** The stream *)

(** Insertions touch nothing but the stream and the files. *)
Lemma stream_put_frame (s : string) (st : state) :
  traceActive (stream_put s st) = traceActive st
  /\ dataVector (stream_put s st) = dataVector st
  /\ vcapacity (stream_put s st) = vcapacity st
  /\ stringBuffer (stream_put s st) = stringBuffer st
  /\ clockInit (stream_put s st) = clockInit st
  /\ startTime (stream_put s st) = startTime st
  /\ cerr (stream_put s st) = cerr st.
Proof.
  unfold stream_put.
  destruct (ios_fail (traceFile st)); [repeat split|].
  destruct (sb_file (traceFile st)); [repeat split|].
  destruct s; repeat split.
Qed.

Lemma put_all_frame (v : list string) (st : state) :
  traceActive (put_all v st) = traceActive st
  /\ dataVector (put_all v st) = dataVector st
  /\ vcapacity (put_all v st) = vcapacity st
  /\ stringBuffer (put_all v st) = stringBuffer st
  /\ clockInit (put_all v st) = clockInit st
  /\ startTime (put_all v st) = startTime st
  /\ cerr (put_all v st) = cerr st.
Proof.
  revert st. induction v as [|x v IH]; intros st; simpl; [repeat split|].
  destruct (IH (stream_put x st)) as (A & B & C & D & E & F & G).
  destruct (stream_put_frame x st) as (A' & B' & C' & D' & E' & F' & G').
  unfold put_all in *.
  rewrite A, B, C, D, E, F, G. repeat split; assumption.
Qed.

Lemma file_content_append (p s : string) (d : filesystem) :
  file_content (file_append p s d) p = file_content d p ++ s.
Proof. unfold file_content at 1, file_append. now rewrite String.eqb_refl. Qed.

(** On a stream that is good and attached to [p], insertions append to [p]. *)
Lemma stream_put_good (s p : string) (st : state) :
  traceFile st = mkStream (Some p) false ->
  traceFile (stream_put s st) = mkStream (Some p) false
  /\ file_content (disk (stream_put s st)) p = file_content (disk st) p ++ s
  /\ disk (stream_put s st) p <> None.
Proof.
  intros H. unfold stream_put. rewrite H. simpl.
  split; [assumption|]. split; [apply file_content_append|].
  unfold file_append. now rewrite String.eqb_refl.
Qed.

(** On a stream in an error state nothing is written. *)
Lemma stream_put_failed (s : string) (st : state) :
  ios_fail (traceFile st) = true -> stream_put s st = st.
Proof. intros H. unfold stream_put. now rewrite H. Qed.

Lemma put_all_failed (v : list string) (st : state) :
  ios_fail (traceFile st) = true -> put_all v st = st.
Proof.
  revert st. induction v as [|x v IH]; intros st H; simpl; [reflexivity|].
  rewrite stream_put_failed by assumption. now apply IH.
Qed.

(** Without a file attached nothing reaches the files. *)
Lemma stream_put_closed (s : string) (st : state) :
  sb_file (traceFile st) = None ->
  disk (stream_put s st) = disk st
  /\ sb_file (traceFile (stream_put s st)) = None.
Proof.
  intros H. unfold stream_put.
  destruct (ios_fail (traceFile st)); [now split|].
  rewrite H. destruct s; now split.
Qed.

Lemma put_all_closed (v : list string) (st : state) :
  sb_file (traceFile st) = None ->
  disk (put_all v st) = disk st
  /\ sb_file (traceFile (put_all v st)) = None.
Proof.
  revert st. induction v as [|x v IH]; intros st H; simpl; [now split|].
  destruct (stream_put_closed x st H) as [D F].
  destruct (IH _ F) as [D' F']. unfold put_all in *.
  rewrite D', F'. now split.
Qed.

(** ** Flushing *)

Lemma trace_flush_empty (st : state) :
  dataVector st = [] -> trace_flush st = st.
Proof.
  intros H. unfold trace_flush. rewrite H. simpl.
  destruct st; simpl in *; subst; reflexivity.
Qed.

Lemma trace_flush_twice (st : state) :
  trace_flush (trace_flush st) = trace_flush st.
Proof. now apply trace_flush_empty. Qed.

Lemma stream_put_set_traceActive (b : bool) (s : string) (st : state) :
  stream_put s (set_traceActive b st) = set_traceActive b (stream_put s st).
Proof.
  unfold stream_put. simpl.
  destruct (ios_fail (traceFile st)); [reflexivity|].
  destruct (sb_file (traceFile st)); [reflexivity|].
  destruct s; reflexivity.
Qed.

Lemma put_all_set_traceActive (b : bool) (v : list string) (st : state) :
  put_all v (set_traceActive b st) = set_traceActive b (put_all v st).
Proof.
  revert st. induction v as [|x v IH]; intros st; simpl; [reflexivity|].
  rewrite stream_put_set_traceActive. apply IH.
Qed.

Lemma flush_if_full_twice (st : state) :
  flush_if_full (flush_if_full st) = flush_if_full st.
Proof.
  unfold flush_if_full.
  destruct (Nat.eqb (length (dataVector st)) (vcapacity st)) eqn:E.
  - destruct (Nat.eqb (length (dataVector (trace_flush st))) _);
      [apply trace_flush_twice | reflexivity].
  - now rewrite E.
Qed.

(** ** What a call leaves alone *)

Lemma quiet_refl (st : state) : quiet st st.
Proof. repeat split. Qed.

Lemma quiet_trans (a b c : state) : quiet a b -> quiet b c -> quiet a c.
Proof.
  intros (A1 & A2 & A3 & A4 & A5) (B1 & B2 & B3 & B4 & B5).
  repeat split; congruence.
Qed.

Lemma quiet_same_clock (st st' : state) : quiet st st' -> same_clock st st'.
Proof. intros (_ & _ & A & B & _). now split. Qed.

Lemma same_clock_trans (a b c : state) :
  same_clock a b -> same_clock b c -> same_clock a c.
Proof. intros [A1 A2] [B1 B2]. split; congruence. Qed.

Lemma trace_flush_same_clock (st : state) : same_clock st (trace_flush st).
Proof.
  destruct (put_all_frame (dataVector st) st) as (_ & _ & _ & _ & E & F & _).
  split; simpl; assumption.
Qed.

Lemma flush_if_full_same_clock (st : state) : same_clock st (flush_if_full st).
Proof.
  unfold flush_if_full. destruct (Nat.eqb _ _);
    [apply trace_flush_same_clock | now split].
Qed.

Lemma flush_if_full_active (st : state) :
  traceActive (flush_if_full st) = traceActive st.
Proof.
  unfold flush_if_full. destruct (Nat.eqb _ _); [|reflexivity].
  simpl. apply put_all_frame.
Qed.

Lemma flush_if_full_cerr (st : state) : cerr (flush_if_full st) = cerr st.
Proof.
  unfold flush_if_full. destruct (Nat.eqb _ _); [|reflexivity].
  simpl. apply put_all_frame.
Qed.

Lemma timestamp_flush_if_full (st : state) (now : Z) :
  timestamp (flush_if_full st) now = ts_at (startTime st) now.
Proof.
  unfold timestamp, ts_at.
  now destruct (flush_if_full_same_clock st) as [_ ->].
Qed.

Lemma push_back_quiet (st : state) : quiet st (push_back st).
Proof.
  unfold push_back. destruct (Nat.eqb _ _); repeat split.
Qed.

Lemma push_back_dataVector (st : state) :
  dataVector (push_back st) = (dataVector st ++ [stringBuffer st])%list.
Proof. unfold push_back. destruct (Nat.eqb _ _); reflexivity. Qed.

Lemma push_back_cerr (st : state) : cerr (push_back st) = cerr st.
Proof. unfold push_back. destruct (Nat.eqb _ _); reflexivity. Qed.

(** ** The scratch buffer *)

Lemma fits_prefix (a b : string) : fits (a ++ b) = true -> fits a = true.
Proof.
  unfold fits. rewrite length_append, !Nat.ltb_lt. lia.
Qed.

Lemma set_stringBuffer_same (st : state) :
  set_stringBuffer (stringBuffer st) st = st.
Proof. destruct st; reflexivity. Qed.

Lemma set_stringBuffer_twice (a b : string) (st : state) :
  set_stringBuffer a (set_stringBuffer b st) = set_stringBuffer a st.
Proof. reflexivity. Qed.

(** The loop leaves in the buffer what was there followed by [args_text]. *)
Lemma args_loop_closed (names values : list string) (st : state) :
  length names = length values ->
  fits (stringBuffer st ++ args_text names values) = true ->
  args_loop names values st
  = Done (set_stringBuffer (stringBuffer st ++ args_text names values) st).
Proof.
  revert values st.
  induction names as [|n names IH]; intros [|v values] st L F;
    try discriminate.
  - cbn [args_loop args_text]. now rewrite append_nil_r, set_stringBuffer_same.
  - injection L as L. cbn [args_loop args_text] in *.
    set (sep := match names with [] => EmptyString | _ :: _ => ", " end) in *.
    assert (T : quoted n ++ ": " ++ v ++ sep ++ args_text names values
                = (quoted n ++ ": " ++ v) ++ sep ++ args_text names values)
      by now rewrite !append_assoc.
    rewrite T in *. clear T.
    set (piece := quoted n ++ ": " ++ v) in *.
    assert (F1 : fits (stringBuffer st ++ piece) = true).
    { apply fits_prefix with (b := sep ++ args_text names values).
      now rewrite append_assoc. }
    assert (F2 : fits ((stringBuffer st ++ piece) ++ sep) = true).
    { apply fits_prefix with (b := args_text names values).
      now rewrite !append_assoc. }
    unfold sprintf_cat at 1. unfold sprintf. rewrite F1. cbn [bind].
    assert (E : match names with
                | [] => Done (set_stringBuffer (stringBuffer st ++ piece) st)
                | _ :: _ =>
                    sprintf_cat ", " (set_stringBuffer (stringBuffer st ++ piece) st)
                end
                = Done (set_stringBuffer ((stringBuffer st ++ piece) ++ sep) st)).
    { unfold sep in *. destruct names.
      - now rewrite append_nil_r.
      - unfold sprintf_cat, sprintf. simpl stringBuffer. now rewrite F2. }
    rewrite E. cbn [bind].
    rewrite IH; [| assumption | simpl stringBuffer; now rewrite !append_assoc].
    rewrite set_stringBuffer_twice. simpl stringBuffer.
    now rewrite !append_assoc.
Qed.

Lemma finish_args_closed (names values : list string) (st : state) :
  length names = length values ->
  fits (stringBuffer st ++ args_text names values ++ ARGS_CLOSE) = true ->
  finish_args names values st
  = Done (push_back (set_stringBuffer
            (stringBuffer st ++ args_text names values ++ ARGS_CLOSE) st)).
Proof.
  intros L F. unfold finish_args.
  rewrite args_loop_closed; [| assumption |].
  - cbn [bind]. unfold sprintf_cat, sprintf. simpl stringBuffer.
    rewrite append_assoc, F. reflexivity.
  - apply fits_prefix with (b := ARGS_CLOSE). now rewrite append_assoc.
Qed.

(** ** Reports *)

Lemma stream_put_report (m s : string) (st : state) :
  stream_put s (report m st) = report m (stream_put s st).
Proof.
  unfold stream_put. simpl.
  destruct (ios_fail (traceFile st)); [reflexivity|].
  destruct (sb_file (traceFile st)); [reflexivity|].
  destruct s; reflexivity.
Qed.

Lemma put_all_report (m : string) (v : list string) (st : state) :
  put_all v (report m st) = report m (put_all v st).
Proof.
  revert st. induction v as [|x v IH]; intros st; simpl; [reflexivity|].
  rewrite stream_put_report. apply IH.
Qed.

Lemma flush_if_full_report (m : string) (st : state) :
  flush_if_full (report m st) = report m (flush_if_full st).
Proof.
  unfold flush_if_full. simpl.
  destruct (Nat.eqb _ _); [|reflexivity].
  unfold trace_flush. simpl. now rewrite put_all_report.
Qed.

Lemma report_quiet (m : string) (st : state) : quiet st (report m st).
Proof. repeat split. Qed.

(** ** The emitting calls in closed form *)

Lemma record_assoc (body close : string) :
  (body ++ close) ++ SEP = body ++ close ++ SEP.
Proof. apply append_assoc. Qed.

Lemma trace_event_start_closed (name categories : string) (tid now : Z)
    (st : state) :
  traceActive st = true ->
  fits (fmt_begin name categories tid (ts_at (startTime st) now) ++ CLOSE) = true ->
  trace_event_start name categories tid now st
  = Done (push_back (set_stringBuffer
            (fmt_begin name categories tid (ts_at (startTime st) now) ++ CLOSE)
            (flush_if_full st))).
Proof.
  intros A F. unfold trace_event_start. rewrite A. cbn [negb].
  rewrite timestamp_flush_if_full. unfold sprintf. now rewrite F.
Qed.

Lemma trace_event_end_closed (tid now : Z) (st : state) :
  traceActive st = true ->
  fits (fmt_end tid (ts_at (startTime st) now) ++ CLOSE) = true ->
  trace_event_end tid now st
  = Done (push_back (set_stringBuffer
            (fmt_end tid (ts_at (startTime st) now) ++ CLOSE)
            (flush_if_full st))).
Proof.
  intros A F. unfold trace_event_end. rewrite A. cbn [negb].
  rewrite timestamp_flush_if_full. unfold sprintf. now rewrite F.
Qed.

(** The state after a record [r] went through the scratch buffer into the
    vector. *)
Lemma pushed_record (r : string) (st : state) :
  dataVector (push_back (set_stringBuffer r st)) = (dataVector st ++ [r])%list
  /\ quiet st (push_back (set_stringBuffer r st))
  /\ cerr (push_back (set_stringBuffer r st)) = cerr st.
Proof.
  split; [now rewrite push_back_dataVector|].
  split; [|now rewrite push_back_cerr].
  apply quiet_trans with (b := set_stringBuffer r st);
    [repeat split | apply push_back_quiet].
Qed.

(** With lists of different sizes the begin call with arguments is the
    call without arguments and without thread id, after the report. *)
Lemma trace_event_start_args_mismatch (name categories : string)
    (ns vs : list string) (tid now : Z) (st : state) :
  traceActive st = true ->
  length ns <> length vs ->
  trace_event_start_args name categories ns vs tid now st
  = trace_event_start name categories TID_VALUE now
      (report (mismatch_begin name) (flush_if_full st)).
Proof.
  intros A L. unfold trace_event_start_args. rewrite A. cbn [negb].
  apply Nat.eqb_neq in L. now rewrite L.
Qed.

Lemma trace_event_end_args_mismatch (ns vs : list string) (tid now : Z)
    (st : state) :
  traceActive st = true ->
  length ns <> length vs ->
  trace_event_end_args ns vs tid now st
  = trace_event_end TID_VALUE now (report mismatch_end (flush_if_full st)).
Proof.
  intros A L. unfold trace_event_end_args. rewrite A. cbn [negb].
  apply Nat.eqb_neq in L. now rewrite L.
Qed.

Lemma trace_counter_mismatch (name : string) (ks vs : list string)
    (tid now : Z) (st : state) :
  traceActive st = true ->
  length ks <> length vs ->
  trace_counter name ks vs tid now st
  = Done (report (mismatch_counter name) (flush_if_full st)).
Proof.
  intros A L. unfold trace_counter. rewrite A. cbn [negb].
  apply Nat.eqb_neq in L. now rewrite L.
Qed.

(** The tail of the calls with arguments, after the head [h] was printed. *)
Lemma args_tail_closed (h : string) (ns vs : list string) (st : state) :
  length ns = length vs ->
  fits ((h ++ ARGS_OPEN ++ args_text ns vs ++ "} }") ++ SEP) = true ->
  (st2 <- sprintf (h ++ ARGS_OPEN) st ;; finish_args ns vs st2)
  = Done (push_back (set_stringBuffer
            ((h ++ ARGS_OPEN ++ args_text ns vs ++ "} }") ++ SEP) st)).
Proof.
  intros L F.
  assert (E : (h ++ ARGS_OPEN ++ args_text ns vs ++ "} }") ++ SEP
              = (h ++ ARGS_OPEN) ++ args_text ns vs ++ ARGS_CLOSE).
  { unfold ARGS_CLOSE. now rewrite !append_assoc. }
  rewrite E in *.
  unfold sprintf. rewrite (fits_prefix _ _ F). cbn [bind].
  rewrite finish_args_closed by assumption.
  now rewrite set_stringBuffer_twice.
Qed.

Lemma Some_inj (A : Type) (a b : A) : Some a = Some b -> a = b.
Proof. congruence. Qed.

Lemma Done_inj (A : Type) (a b : A) : Done a = Done b -> a = b.
Proof. congruence. Qed.

(** Every emitting call on an active session whose record fits the scratch
    buffer appends exactly the record [object_of] describes, after the flush
    of a full vector, and leaves the stream, the files and the clock
    alone. *)
Lemma exec_emit (TRACE_MAX : nat) (c : call) (st : state) (o : string) :
  traceActive st = true ->
  object_of (startTime st) c = Some o ->
  fits (o ++ SEP) = true ->
  exists st',
    exec TRACE_MAX c st = Done st'
    /\ dataVector st'
       = (dataVector (flush_if_full st) ++ [(o ++ SEP)%string])%list
    /\ quiet (flush_if_full st) st'.
Proof.
  intros A O F.
  assert (P : forall r s,
             exists st', Done (push_back (set_stringBuffer r s)) = Done st'
                         /\ dataVector st' = (dataVector s ++ [r])%list
                         /\ quiet s st').
  { intros r s. eexists. split; [reflexivity|].
    destruct (pushed_record r s) as (X & Y & _). now split. }
  destruct c; cbn [object_of] in O; try discriminate; cbn [exec].
  - (* EventStart *)
    apply Some_inj in O; subst o. rewrite record_assoc in *.
    rewrite trace_event_start_closed by assumption. apply P.
  - (* EventStartArgs *)
    destruct (Nat.eqb (length names) (length values)) eqn:L; apply Some_inj in O; subst o.
    + apply Nat.eqb_eq in L.
      unfold trace_event_start_args. rewrite A. cbn [negb].
      rewrite (proj2 (Nat.eqb_eq _ _) L). cbn [negb].
      rewrite timestamp_flush_if_full.
      rewrite args_tail_closed by assumption. apply P.
    + apply Nat.eqb_neq in L. rewrite record_assoc in *.
      rewrite trace_event_start_args_mismatch by assumption.
      rewrite trace_event_start_closed;
        [| cbn [report traceActive]; now rewrite flush_if_full_active
         | cbn [report startTime];
           now destruct (flush_if_full_same_clock st) as [_ ->]].
      rewrite flush_if_full_report, flush_if_full_twice.
      cbn [report startTime].
      destruct (flush_if_full_same_clock st) as [_ ->].
      destruct (P (fmt_begin name categories TID_VALUE
                     (ts_at (startTime st) now) ++ CLOSE)
                  (report (mismatch_begin name) (flush_if_full st)))
        as (st' & E & D & Q).
      exists st'. split; [exact E|]. split; [exact D|].
      apply quiet_trans with (2 := Q). apply report_quiet.
  - (* EventEnd *)
    apply Some_inj in O; subst o. rewrite record_assoc in *.
    rewrite trace_event_end_closed by assumption. apply P.
  - (* EventEndArgs *)
    destruct (Nat.eqb (length names) (length values)) eqn:L; apply Some_inj in O; subst o.
    + apply Nat.eqb_eq in L.
      unfold trace_event_end_args. rewrite A. cbn [negb].
      rewrite (proj2 (Nat.eqb_eq _ _) L). cbn [negb].
      rewrite timestamp_flush_if_full.
      rewrite args_tail_closed by assumption. apply P.
    + apply Nat.eqb_neq in L. rewrite record_assoc in *.
      rewrite trace_event_end_args_mismatch by assumption.
      rewrite trace_event_end_closed;
        [| cbn [report traceActive]; now rewrite flush_if_full_active
         | cbn [report startTime];
           now destruct (flush_if_full_same_clock st) as [_ ->]].
      rewrite flush_if_full_report, flush_if_full_twice.
      cbn [report startTime].
      destruct (flush_if_full_same_clock st) as [_ ->].
      destruct (P (fmt_end TID_VALUE (ts_at (startTime st) now) ++ CLOSE)
                  (report mismatch_end (flush_if_full st)))
        as (st' & E & D & Q).
      exists st'. split; [exact E|]. split; [exact D|].
      apply quiet_trans with (2 := Q). apply report_quiet.
  - (* ObjectNew *)
    apply Some_inj in O; subst o. rewrite record_assoc in *.
    unfold trace_object_new. rewrite A. cbn [negb].
    rewrite timestamp_flush_if_full. unfold sprintf.
    change ("}" ++ SEP) with CLOSE in F. rewrite F. apply P.
  - (* ObjectGone *)
    apply Some_inj in O; subst o. rewrite record_assoc in *.
    unfold trace_object_gone. rewrite A. cbn [negb].
    rewrite timestamp_flush_if_full. unfold sprintf.
    change ("}" ++ SEP) with CLOSE in F. rewrite F. apply P.
  - (* InstantGlobal *)
    apply Some_inj in O; subst o. rewrite record_assoc in *.
    unfold trace_instant_global. rewrite A. cbn [negb].
    rewrite timestamp_flush_if_full. unfold sprintf.
    change ("}" ++ SEP) with CLOSE in F. rewrite F. apply P.
  - (* Counter *)
    destruct (Nat.eqb (length key) (length value)) eqn:L; [|discriminate].
    apply Some_inj in O; subst o. apply Nat.eqb_eq in L.
    unfold trace_counter. rewrite A. cbn [negb].
    rewrite (proj2 (Nat.eqb_eq _ _) L). cbn [negb].
    rewrite timestamp_flush_if_full.
    rewrite args_tail_closed by assumption. apply P.
Qed.

(** ** Sessions *)

Lemma run_app (TRACE_MAX : nat) (a b : list call) (st : state) :
  run TRACE_MAX (a ++ b) st = (st' <- run TRACE_MAX a st ;; run TRACE_MAX b st').
Proof.
  revert st. induction a as [|c a IH]; intros st; simpl; [reflexivity|].
  destruct (exec TRACE_MAX c st); simpl; [apply IH | reflexivity].
Qed.

Lemma file_content_Some (d : filesystem) (p c : string) :
  d p = Some c -> file_content d p = c.
Proof. intros H. unfold file_content. now rewrite H. Qed.

(** A successful start from an idle state opens a session without records. *)
Lemma start_session (TRACE_MAX : nat) (p : string) (t0 : Z) (st : state) :
  idle st ->
  session p (session_origin st t0) [] (fst (trace_start TRACE_MAX p true t0 st))
  /\ dataVector (fst (trace_start TRACE_MAX p true t0 st)) = [].
Proof.
  intros (A & V & F).
  destruct st as [a v cap [f fl] sb ci t d ce]. simpl in A, V, F. subst.
  unfold trace_start, stream_open, stream_put, session_origin, session.
  simpl. destruct ci; simpl;
    (split; [|reflexivity]); repeat (split; [reflexivity|]);
    exists []; (split; [reflexivity|]);
    unfold file_append, file_content, file_truncate;
    now rewrite !String.eqb_refl.
Qed.

Lemma stream_put_session_disk (s p c : string) (st : state) :
  traceFile st = mkStream (Some p) false ->
  disk st p = Some c ->
  disk (stream_put s st) p = Some (c ++ s).
Proof.
  intros F D. unfold stream_put. rewrite F. cbn [ios_fail sb_file set_disk disk].
  unfold file_append. rewrite String.eqb_refl.
  now rewrite (file_content_Some _ _ D).
Qed.

Lemma put_all_session_disk (v : list string) (p c : string) (st : state) :
  traceFile st = mkStream (Some p) false ->
  disk st p = Some c ->
  traceFile (put_all v st) = mkStream (Some p) false
  /\ disk (put_all v st) p = Some (c ++ concat_strings v).
Proof.
  revert st c. induction v as [|x v IH]; intros st c F D; simpl.
  - now rewrite append_nil_r.
  - destruct (stream_put_good x st F) as (F' & _ & _).
    destruct (IH _ _ F' (stream_put_session_disk x st F D)) as (F'' & D'').
    unfold put_all in *. rewrite F'', D'', append_assoc. now split.
Qed.

(** Flushing keeps the session and moves the vector to the file. *)
Lemma trace_flush_session (p : string) (origin : Z) (recs : list string)
    (st : state) :
  session p origin recs st -> session p origin recs (trace_flush st).
Proof.
  intros (A & F & T & written & R & D).
  destruct (put_all_frame (dataVector st) st) as (A' & _ & _ & _ & _ & T' & _).
  destruct (put_all_session_disk (dataVector st) st F D) as (F' & D').
  unfold trace_flush. split; [cbn; congruence|]. split; [exact F'|].
  split; [cbn; congruence|].
  exists (written ++ dataVector st)%list. split.
  - cbn. now rewrite List.app_nil_r.
  - cbn [set_dataVector disk]. rewrite D'.
    now rewrite concat_strings_app, !append_assoc.
Qed.

Lemma flush_if_full_session (p : string) (origin : Z) (recs : list string)
    (st : state) :
  session p origin recs st -> session p origin recs (flush_if_full st).
Proof.
  intros S. unfold flush_if_full.
  destruct (Nat.eqb _ _); [now apply trace_flush_session | exact S].
Qed.

(** A state that differs from a session state only in the vector, the
    scratch buffer and the reports, and has one more record. *)
Lemma session_append (p : string) (origin : Z) (recs : list string)
    (r : string) (st st' : state) :
  session p origin recs st ->
  quiet st st' ->
  dataVector st' = (dataVector st ++ [r])%list ->
  session p origin (recs ++ [r]) st'.
Proof.
  intros (A & F & T & written & R & D) (A' & F' & _ & T' & D') V.
  split; [congruence|]. split; [congruence|]. split; [congruence|].
  exists written. split.
  - rewrite V, R. now rewrite List.app_assoc.
  - now rewrite D'.
Qed.

Lemma session_quiet (p : string) (origin : Z) (recs : list string)
    (st st' : state) :
  session p origin recs st ->
  quiet st st' ->
  dataVector st' = dataVector st ->
  session p origin recs st'.
Proof.
  intros (A & F & T & written & R & D) (A' & F' & _ & T' & D') V.
  split; [congruence|]. split; [congruence|]. split; [congruence|].
  exists written. split; [congruence | now rewrite D'].
Qed.

Lemma records_of_cons (origin : Z) (c : call) (cs : list call) :
  records_of origin (c :: cs)
  = (records_of origin [c] ++ records_of origin cs)%list.
Proof.
  unfold records_of. cbn [objects_of].
  destruct (object_of origin c); reflexivity.
Qed.

(** One call inside a session. *)
Lemma session_step (TRACE_MAX : nat) (p : string) (origin : Z)
    (recs : list string) (c : call) (st : state) :
  session p origin recs st ->
  in_session c = true ->
  call_fits origin c = true ->
  exists st',
    exec TRACE_MAX c st = Done st'
    /\ session p origin (recs ++ records_of origin [c]) st'
    /\ (appends c = true -> dataVector st' <> []).
Proof.
  intros S I F.
  assert (A : traceActive st = true) by apply S.
  assert (T : startTime st = origin) by apply S.
  unfold call_fits in F. unfold records_of. cbn [objects_of].
  destruct (object_of origin c) as [o|] eqn:O.
  - rewrite <- T in O.
    destruct (exec_emit TRACE_MAX c st A O F) as (st' & E & V & Q).
    exists st'. split; [exact E|]. split.
    + cbn [map]. eapply session_append; [| exact Q | exact V].
      now apply flush_if_full_session.
    + intros _. rewrite V. intros X. now apply List.app_eq_nil in X as [_ X].
  - cbn [map]. rewrite List.app_nil_r.
    destruct c; try discriminate; cbn [object_of] in O.
    + (* Flush *)
      exists (trace_flush st). split; [reflexivity|].
      split; [now apply trace_flush_session | discriminate].
    + (* EventStartArgs always appends *)
      destruct (Nat.eqb _ _); discriminate.
    + destruct (Nat.eqb _ _); discriminate.
    + (* Counter with lists of different sizes *)
      destruct (Nat.eqb (length key) (length value)) eqn:L; [discriminate|].
      apply Nat.eqb_neq in L. cbn [exec].
      rewrite trace_counter_mismatch by assumption.
      eexists. split; [reflexivity|]. split.
      * eapply session_quiet;
          [apply flush_if_full_session; exact S | apply report_quiet | reflexivity].
      * unfold appends. cbn [object_of].
        apply Nat.eqb_neq in L. now rewrite L.
Qed.

(** A sequence of calls inside a session. *)
Lemma session_run (TRACE_MAX : nat) (p : string) (origin : Z) (cs : list call) :
  forall (recs : list string) (st : state),
    session p origin recs st ->
    forallb in_session cs = true ->
    forallb (call_fits origin) cs = true ->
    exists st',
      run TRACE_MAX cs st = Done st'
      /\ session p origin (recs ++ records_of origin cs) st'.
Proof.
  induction cs as [|c cs IH]; intros recs st S I F.
  - exists st. split; [reflexivity|]. unfold records_of. cbn.
    now rewrite List.app_nil_r.
  - cbn [forallb] in I, F.
    apply andb_true_iff in I as [I1 I2]. apply andb_true_iff in F as [F1 F2].
    destruct (session_step TRACE_MAX c S I1 F1) as (st1 & E & S1 & _).
    destruct (IH _ _ S1 I2 F2) as (st2 & E2 & S2).
    exists st2. split.
    + cbn [run]. rewrite E. exact E2.
    + rewrite records_of_cons, List.app_assoc. exact S2.
Qed.

Lemma join_objects_snoc (os : list string) (o : string) :
  join_objects (os ++ [o]) = concat_strings (map add_sep os) ++ o.
Proof.
  induction os as [|a os IH]; [reflexivity|].
  destruct os as [|b os].
  - cbn. unfold add_sep. now rewrite append_nil_r, append_assoc.
  - change (join_objects ((a :: b :: os) ++ [o]))
      with (a ++ SEP ++ join_objects ((b :: os) ++ [o])).
    rewrite IH.
    change (concat_strings (map add_sep (a :: b :: os)))
      with (add_sep a ++ concat_strings (map add_sep (b :: os))).
    unfold add_sep. now rewrite !append_assoc.
Qed.

(** The end of a session whose vector is not empty: the separator of the
    last record is removed, the vector is written, the bracket closes the
    array and the stream is closed. *)
Lemma trace_end_session (p : string) (origin : Z) (os : list string)
    (st : state) :
  session p origin (map add_sep os) st ->
  dataVector st <> [] ->
  exists st',
    trace_end st = Done st'
    /\ disk st' p = Some ("[" ++ NL ++ join_objects os ++ NL ++ "]")
    /\ idle st'
    /\ same_clock st st'.
Proof.
  intros (A & F & T & written & R & D) N.
  destruct (exists_last N) as (v & x & V).
  rewrite V, List.app_assoc in R.
  apply map_eq_app in R as (l1 & l2 & -> & R1 & R2).
  destruct l2 as [|o [|? ?]]; try discriminate.
  cbn [map] in R2. apply (f_equal (fun l => hd EmptyString l)) in R2.
  cbn [hd] in R2. subst x.
  unfold trace_end. rewrite V. unfold add_sep, SEP, NL.
  replace (o ++ "," ++ String "010" EmptyString)
    with ((o ++ ",") ++ String "010" EmptyString) by apply append_assoc.
  rewrite back_pop_back_last. cbn [bind].
  rewrite back_pop_back_last. cbn [bind].
  set (st0 := set_dataVector (v ++ [o]) st).
  assert (F0 : traceFile st0 = mkStream (Some p) false) by exact F.
  assert (D0 : disk st0 p = Some ("[" ++ String "010" EmptyString
                                    ++ concat_strings written)) by exact D.
  destruct (put_all_session_disk (dataVector st0) st0 F0 D0) as (F1 & D1).
  destruct (put_all_frame (dataVector st0) st0) as (_ & _ & _ & _ & C1 & T1 & _).
  unfold trace_flush.
  set (st1 := set_dataVector [] (put_all (dataVector st0) st0)).
  assert (F1' : traceFile st1 = mkStream (Some p) false) by exact F1.
  pose proof (stream_put_session_disk (String "010" EmptyString ++ "]") st1 F1'
                (D1 : disk st1 p = _)) as D2.
  destruct (stream_put_good (String "010" EmptyString ++ "]") st1 F1')
    as (F2 & _ & _).
  destruct (stream_put_frame (String "010" EmptyString ++ "]") st1)
    as (_ & V2 & _ & _ & C2 & T2 & _).
  set (st2 := stream_put (String "010" EmptyString ++ "]") st1) in *.
  assert (CK : clockInit st2 = clockInit st) by (rewrite C2; exact C1).
  assert (TK : startTime st2 = startTime st) by (rewrite T2; exact T1).
  assert (VK : dataVector st2 = []) by (rewrite V2; reflexivity).
  eexists. split; [reflexivity|].
  unfold stream_close. rewrite F2. cbn [sb_file ios_fail].
  split; [|split; [|split]].
  - cbn [set_traceActive set_traceFile disk]. rewrite D2. f_equal.
    subst st0. cbn [set_dataVector dataVector].
    change (String "010" EmptyString) with NL.
    rewrite join_objects_snoc, R1, !concat_strings_app.
    cbn [concat_strings fold_right]. now rewrite append_nil_r, !append_assoc.
  - split; [reflexivity|]. split; [exact VK | reflexivity].
  - exact CK.
  - exact TK.
Qed.

(** A whole session from an idle state: every call inside it completes,
    and when the vector is not empty at the end, the file holds the
    document of the session with no capacity limit. *)
Lemma session_document (TRACE_MAX : nat) (p : string) (t0 : Z)
    (cs : list call) (st : state) :
  idle st ->
  forallb in_session cs = true ->
  forallb (call_fits (session_origin st t0)) cs = true ->
  exists st1,
    run TRACE_MAX (Start p true t0 :: cs) st = Done st1
    /\ traceActive st1 = true
    /\ (dataVector st1 <> [] ->
        exists st2,
          run TRACE_MAX (Start p true t0 :: cs ++ [End]) st = Done st2
          /\ disk st2 p = Some (unbounded_document (session_origin st t0) cs)
          /\ idle st2).
Proof.
  intros I IS F.
  destruct (start_session TRACE_MAX p t0 I) as (S0 & _).
  destruct (session_run TRACE_MAX cs S0 IS F) as (st1 & E & S1).
  exists st1. cbn [run exec bind]. split; [exact E|].
  split; [apply S1|]. intros N.
  cbn [app] in S1. unfold records_of in S1.
  destruct (trace_end_session (objects_of (session_origin st t0) cs) S1 N)
    as (st2 & E2 & D2 & I2 & _).
  exists st2. split; [|split; assumption].
  rewrite run_app, E. cbn [bind run exec]. now rewrite E2.
Qed.

(** ** What calls leave alone, whatever the state *)

Lemma sprintf_quiet (s : string) (st st' : state) :
  sprintf s st = Done st' ->
  quiet st st' /\ dataVector st' = dataVector st /\ cerr st' = cerr st.
Proof.
  unfold sprintf. destruct (fits s); [|discriminate].
  intros H. apply Done_inj in H. subst st'. repeat split.
Qed.

Lemma args_loop_quiet (names values : list string) (st st' : state) :
  args_loop names values st = Done st' ->
  quiet st st' /\ dataVector st' = dataVector st /\ cerr st' = cerr st.
Proof.
  revert values st.
  induction names as [|n names IH]; intros [|v values] st H;
    cbn [args_loop] in H; try discriminate.
  - injection H as <-. repeat split.
  - injection H as <-. repeat split.
  - destruct (sprintf_cat (quoted n ++ ": " ++ v) st) as [st1|] eqn:E1;
      [|discriminate]. cbn [bind] in H.
    apply sprintf_quiet in E1 as (Q1 & V1 & C1).
    destruct names as [|n' names'].
    + cbn [bind] in H. apply IH in H as (Q2 & V2 & C2).
      split; [eapply quiet_trans; eassumption|]. split; congruence.
    + destruct (sprintf_cat ", " st1) as [st2|] eqn:E2; [|discriminate].
      cbn [bind] in H. apply sprintf_quiet in E2 as (Q2 & V2 & C2).
      apply IH in H as (Q3 & V3 & C3).
      split; [eapply quiet_trans; [eapply quiet_trans|]; eassumption|].
      split; congruence.
Qed.

Lemma finish_args_quiet (names values : list string) (st st' : state) :
  finish_args names values st = Done st' -> quiet st st'.
Proof.
  unfold finish_args. intros H.
  destruct (args_loop names values st) as [st1|] eqn:E1; [|discriminate].
  cbn [bind] in H.
  destruct (sprintf_cat ARGS_CLOSE st1) as [st2|] eqn:E2; [|discriminate].
  cbn [bind] in H. injection H as <-.
  apply args_loop_quiet in E1 as (Q1 & _). apply sprintf_quiet in E2 as (Q2 & _).
  eapply quiet_trans; [eassumption|].
  eapply quiet_trans; [eassumption | apply push_back_quiet].
Qed.

Ltac plain_emit H :=
  match type of H with
  | bind (sprintf ?s ?st1) _ = Done _ =>
      let st2 := fresh "st2" in
      let E := fresh "E" in
      destruct (sprintf s st1) as [st2|] eqn:E; [|discriminate H];
      cbn [bind] in H; apply Done_inj in H; subst;
      apply sprintf_quiet in E as (E & _);
      eapply quiet_trans; [exact E | apply push_back_quiet]
  end.

Ltac args_emit H :=
  match type of H with
  | bind (sprintf ?s ?st1) _ = Done _ =>
      let st2 := fresh "st2" in
      let E := fresh "E" in
      destruct (sprintf s st1) as [st2|] eqn:E; [|discriminate H];
      cbn [bind] in H;
      apply sprintf_quiet in E as (E & _);
      apply finish_args_quiet in H;
      eapply quiet_trans; [exact E | exact H]
  end.

Lemma trace_event_start_quiet (name categories : string) (tid now : Z)
    (st st' : state) :
  trace_event_start name categories tid now st = Done st' ->
  quiet (settled st) st'.
Proof.
  unfold trace_event_start, settled. intros H.
  destruct (traceActive st); cbn [negb] in H;
    [| apply Done_inj in H; subst; apply quiet_refl].
  plain_emit H.
Qed.

Lemma trace_event_end_quiet (tid now : Z) (st st' : state) :
  trace_event_end tid now st = Done st' -> quiet (settled st) st'.
Proof.
  unfold trace_event_end, settled. intros H.
  destruct (traceActive st); cbn [negb] in H;
    [| apply Done_inj in H; subst; apply quiet_refl].
  plain_emit H.
Qed.

Lemma settled_after_report (m : string) (st : state) :
  traceActive st = true ->
  quiet (flush_if_full st) (settled (report m (flush_if_full st))).
Proof.
  intros A. unfold settled. cbn [report traceActive].
  rewrite flush_if_full_active, A.
  rewrite flush_if_full_report, flush_if_full_twice. apply report_quiet.
Qed.

(** Every emitting call leaves the session flag, the stream, the clock and
    the files as the flush of a full vector left them. *)
Lemma exec_emit_quiet (TRACE_MAX : nat) (c : call) (st st' : state) :
  is_emit c = true ->
  exec TRACE_MAX c st = Done st' ->
  quiet (settled st) st'.
Proof.
  intros I H. destruct c; try discriminate; cbn [exec] in H.
  - now apply trace_event_start_quiet in H.
  - unfold trace_event_start_args in H. unfold settled.
    destruct (traceActive st) eqn:A; cbn [negb] in H;
      [| apply Done_inj in H; subst; apply quiet_refl].
    destruct (negb (Nat.eqb (length names) (length values))).
    + apply trace_event_start_quiet in H.
      eapply quiet_trans; [now apply settled_after_report | exact H].
    + args_emit H.
  - now apply trace_event_end_quiet in H.
  - unfold trace_event_end_args in H. unfold settled.
    destruct (traceActive st) eqn:A; cbn [negb] in H;
      [| apply Done_inj in H; subst; apply quiet_refl].
    destruct (negb (Nat.eqb (length names) (length values))).
    + apply trace_event_end_quiet in H.
      eapply quiet_trans; [now apply settled_after_report | exact H].
    + args_emit H.
  - unfold trace_object_new in H. unfold settled.
    destruct (traceActive st) eqn:A; cbn [negb] in H;
      [| apply Done_inj in H; subst; apply quiet_refl].
    plain_emit H.
  - unfold trace_object_gone in H. unfold settled.
    destruct (traceActive st) eqn:A; cbn [negb] in H;
      [| apply Done_inj in H; subst; apply quiet_refl].
    plain_emit H.
  - unfold trace_instant_global in H. unfold settled.
    destruct (traceActive st) eqn:A; cbn [negb] in H;
      [| apply Done_inj in H; subst; apply quiet_refl].
    plain_emit H.
  - unfold trace_counter in H. unfold settled.
    destruct (traceActive st) eqn:A; cbn [negb] in H;
      [| apply Done_inj in H; subst; apply quiet_refl].
    destruct (negb (Nat.eqb (length key) (length value))).
    + apply Done_inj in H; subst. apply report_quiet.
    + args_emit H.
Qed.

Lemma settled_same_clock (st : state) : same_clock st (settled st).
Proof.
  unfold settled. destruct (traceActive st);
    [apply flush_if_full_same_clock | now split].
Qed.


Lemma trace_end_frame (st st' : state) :
  trace_end st = Done st' ->
  same_clock st st'
  /\ (ios_fail (traceFile st) = true ->
      ios_fail (traceFile st') = true /\ disk st' = disk st).
Proof.
  unfold trace_end. intros H.
  destruct (back_pop_back (dataVector st)) as [v1|]; [|discriminate].
  cbn [bind] in H.
  destruct (back_pop_back v1) as [v2|]; [|discriminate].
  cbn [bind] in H. apply Done_inj in H. subst st'.
  set (st0 := set_dataVector v2 st).
  set (st1 := trace_flush st0).
  set (st2 := stream_put (NL ++ "]") st1).
  split.
  - destruct (stream_put_frame (NL ++ "]") st1) as (_ & _ & _ & _ & C2 & T2 & _).
    destruct (trace_flush_same_clock st0) as [C1 T1].
    fold st1 in C1, T1. fold st2 in C2, T2.
    assert (C0 : clockInit st0 = clockInit st) by reflexivity.
    assert (T0 : startTime st0 = startTime st) by reflexivity.
    unfold stream_close. destruct (sb_file (traceFile st2));
      split; cbn; congruence.
  - intros F.
    assert (E1 : put_all (dataVector st0) st0 = st0) by now apply put_all_failed.
    assert (F1 : ios_fail (traceFile st1) = true).
    { unfold st1, trace_flush. rewrite E1. exact F. }
    assert (D1 : disk st1 = disk st).
    { unfold st1, trace_flush. now rewrite E1. }
    assert (E2 : st2 = st1) by now apply stream_put_failed.
    rewrite E2. unfold stream_close.
    destruct (sb_file (traceFile st1));
      (split; [first [exact F1 | reflexivity] | exact D1]).
Qed.

(** ** The end of a session and the empty vector *)

Lemma trace_end_empty (st : state) :
  dataVector st = [] -> trace_end st = Undefined.
Proof. intros H. unfold trace_end. now rewrite H. Qed.

(** C2.  At the end the separator is taken from the last record of the
    vector; when the vector is empty there is no last record, and the call
    [dataVector.back()] is undefined.  The two sessions of the claim, the one
    without events and the one whose vector an explicit flush has emptied,
    both end in undefined behaviour instead of a closed document. *)
Theorem end_on_empty_vector_is_undefined :
  run SOURCE_TRACE_MAX [Start "trace.json" true 0; End] initial = Undefined
  /\ run SOURCE_TRACE_MAX [Start "trace.json" true 0; InstantGlobal "e0" 1 1000;
                Flush; End] initial = Undefined.
Proof. split; vm_compute; reflexivity. Qed.

(** ** Flush *)

(** C9.  A flush of an empty vector returns the state it was given: nothing
    is written, nothing is reported, the vector is still empty.  Two flushes
    in a row are one flush. *)
Theorem flush_of_empty_vector_is_noop :
  forall (TRACE_MAX : nat) (st : state),
    (dataVector st = [] -> exec TRACE_MAX Flush st = Done st)
    /\ run TRACE_MAX [Flush; Flush] st = run TRACE_MAX [Flush] st.
Proof.
  intros TRACE_MAX st. split.
  - intros H. cbn [exec]. now rewrite trace_flush_empty.
  - cbn [run exec bind]. now rewrite trace_flush_twice.
Qed.

Lemma flush_of_empty_vector_witness : exec 4 Flush initial = Done initial.
Proof.
  apply (proj1 (flush_of_empty_vector_is_noop 4 initial)). reflexivity.
Defined.

(** C10.  The flush does not look at the session flag: it commutes with any
    setting of it.  On an inactive session, whose stream has no file, it
    empties the vector and no file changes: what was in the vector is
    lost. *)
Theorem flush_has_no_session_check :
  forall (st : state),
    (forall b, trace_flush (set_traceActive b st)
               = set_traceActive b (trace_flush st))
    /\ (traceActive st = false -> is_open st = false ->
        dataVector (trace_flush st) = []
        /\ disk (trace_flush st) = disk st
        /\ is_open (trace_flush st) = false
        /\ traceActive (trace_flush st) = false).
Proof.
  intros st. split.
  - intros b. unfold trace_flush. cbn [set_traceActive dataVector].
    change (put_all (dataVector st)
              (mkState b (dataVector st) (vcapacity st) (traceFile st)
                 (stringBuffer st) (clockInit st) (startTime st) (disk st)
                 (cerr st)))
      with (put_all (dataVector st) (set_traceActive b st)).
    now rewrite put_all_set_traceActive.
  - intros A O.
    assert (F : sb_file (traceFile st) = None).
    { unfold is_open in O. now destruct (sb_file (traceFile st)). }
    destruct (put_all_closed (dataVector st) st F) as [D F'].
    destruct (put_all_frame (dataVector st) st) as (A' & _).
    unfold trace_flush, is_open. cbn. rewrite F'. repeat split; congruence.
Qed.

Lemma flush_has_no_session_check_witness :
  dataVector (trace_flush stale) = []
  /\ disk (trace_flush stale) = disk stale
  /\ is_open (trace_flush stale) = false
  /\ traceActive (trace_flush stale) = false.
Proof.
  apply (proj2 (flush_has_no_session_check stale)); reflexivity.
Defined.

(** ** The clock origin *)

Lemma trace_start_clock (TRACE_MAX : nat) (f : string) (ok : bool) (now : Z)
    (st : state) :
  let r := trace_start TRACE_MAX f ok now st in
  (clockInit st = true -> same_clock st (fst r) )
  /\ (clockInit st = false ->
      (snd r = false /\ same_clock st (fst r))
      \/ (snd r = true /\ clockInit (fst r) = true /\ startTime (fst r) = now)).
Proof.
  unfold trace_start, stream_open, stream_put, is_open.
  destruct st as [a v cap [[p|] fl] sb ci t d ce]; cbn;
    destruct ci, ok; cbn; try destruct fl; cbn;
    (split; [intros H; try discriminate; now split
            | intros H; try discriminate; auto]);
    try (left; repeat split; reflexivity);
    try (right; repeat split; reflexivity).
Qed.

(** What one call does to the clock. *)
Lemma exec_clock (TRACE_MAX : nat) (c : call) (st st' : state) :
  exec TRACE_MAX c st = Done st' ->
  same_clock st st'
  \/ (clockInit st = false /\ clockInit st' = true
      /\ exists f ok now,
           c = Start f ok now
           /\ trace_start TRACE_MAX f ok now st = (st', true)
           /\ startTime st' = now).
Proof.
  intros H.
  destruct (is_emit c) eqn:I.
  - left. apply (exec_emit_quiet _ _ _ I) in H.
    eapply same_clock_trans;
      [apply settled_same_clock | now apply quiet_same_clock].
  - destruct c; try discriminate; cbn [exec] in H.
    + apply Done_inj in H.
      destruct (trace_start_clock TRACE_MAX filename os_ok now st) as [Y N].
      destruct (clockInit st) eqn:C.
      * left. rewrite <- H. now apply Y.
      * destruct (N eq_refl) as [[R S]|(R & S1 & S2)].
        -- left. now rewrite <- H.
        -- right. split; [reflexivity|]. rewrite <- H. split; [exact S1|].
           exists filename, os_ok, now. split; [reflexivity|].
           split; [|exact S2].
           destruct (trace_start TRACE_MAX filename os_ok now st) as [s b].
           cbn in *. now subst.
    + apply Done_inj in H. subst. left. apply trace_flush_same_clock.
    + left. now apply trace_end_frame in H.
Qed.

(** C7.  A call changes the clock origin only when it is a start that
    succeeds while the origin has never been captured, and it then stores
    its own reading of the clock.  Once captured, the origin is the same
    after any sequence of calls, whatever starts and ends it holds. *)
Theorem clock_origin_is_captured_once :
  forall (TRACE_MAX : nat),
    (forall c st st',
        exec TRACE_MAX c st = Done st' ->
        (clockInit st' = clockInit st /\ startTime st' = startTime st)
        \/ (clockInit st = false /\ clockInit st' = true
            /\ exists f ok now,
                 c = Start f ok now
                 /\ trace_start TRACE_MAX f ok now st = (st', true)
                 /\ startTime st' = now))
    /\ (forall cs st st',
          clockInit st = true ->
          run TRACE_MAX cs st = Done st' ->
          clockInit st' = true /\ startTime st' = startTime st).
Proof.
  intros TRACE_MAX. split.
  - intros c st st' H. apply exec_clock in H. exact H.
  - induction cs as [|c cs IH]; intros st st' C H; cbn [run] in H.
    + apply Done_inj in H. now subst.
    + destruct (exec TRACE_MAX c st) as [st1|] eqn:E; [|discriminate].
      cbn [bind] in H. apply exec_clock in E as [[C1 T1]|(C1 & _)];
        [|congruence].
      destruct (IH st1 st' ltac:(congruence) H) as [C2 T2].
      split; congruence.
Qed.

Lemma clock_origin_witness :
  clockInit (result (run 4 two_sessions started)) = true
  /\ startTime (result (run 4 two_sessions started)) = 5000.
Proof.
  apply (proj2 (clock_origin_is_captured_once 4) two_sessions started);
    vm_compute; reflexivity.
Defined.

(** ** A second start on an active session *)





(** ** Argument lists of different sizes *)

(** The begin call with arguments, on lists of different sizes. *)
Lemma begin_mismatch_result (name categories : string) (ns vs : list string)
    (tid now : Z) (st : state) :
  traceActive st = true ->
  length ns <> length vs ->
  fits (fmt_begin name categories TID_VALUE (ts_at (startTime st) now) ++ CLOSE)
  = true ->
  exists st',
    trace_event_start_args name categories ns vs tid now st = Done st'
    /\ cerr st' = cerr st ++ mismatch_begin name
    /\ dataVector st'
       = (dataVector (flush_if_full st)
            ++ [(fmt_begin name categories TID_VALUE
                   (ts_at (startTime st) now) ++ CLOSE)%string])%list.
Proof.
  intros A L F.
  rewrite trace_event_start_args_mismatch by assumption.
  rewrite trace_event_start_closed;
    [| cbn [report traceActive]; now rewrite flush_if_full_active
     | cbn [report startTime];
       now destruct (flush_if_full_same_clock st) as [_ ->]].
  rewrite flush_if_full_report, flush_if_full_twice.
  cbn [report startTime]. destruct (flush_if_full_same_clock st) as [_ ->].
  eexists. split; [reflexivity|].
  destruct (pushed_record
              (fmt_begin name categories TID_VALUE (ts_at (startTime st) now)
                 ++ CLOSE)
              (report (mismatch_begin name) (flush_if_full st)))
    as (V & _ & C).
  rewrite V, C. cbn [report cerr dataVector].
  now rewrite flush_if_full_cerr.
Qed.

(** The end call with arguments, on lists of different sizes. *)
Lemma end_mismatch_result (ns vs : list string) (tid now : Z) (st : state) :
  traceActive st = true ->
  length ns <> length vs ->
  fits (fmt_end TID_VALUE (ts_at (startTime st) now) ++ CLOSE) = true ->
  exists st',
    trace_event_end_args ns vs tid now st = Done st'
    /\ cerr st' = cerr st ++ mismatch_end
    /\ dataVector st'
       = (dataVector (flush_if_full st)
            ++ [(fmt_end TID_VALUE (ts_at (startTime st) now) ++ CLOSE)%string])%list.
Proof.
  intros A L F.
  rewrite trace_event_end_args_mismatch by assumption.
  rewrite trace_event_end_closed;
    [| cbn [report traceActive]; now rewrite flush_if_full_active
     | cbn [report startTime];
       now destruct (flush_if_full_same_clock st) as [_ ->]].
  rewrite flush_if_full_report, flush_if_full_twice.
  cbn [report startTime]. destruct (flush_if_full_same_clock st) as [_ ->].
  eexists. split; [reflexivity|].
  destruct (pushed_record
              (fmt_end TID_VALUE (ts_at (startTime st) now) ++ CLOSE)
              (report mismatch_end (flush_if_full st)))
    as (V & _ & C).
  rewrite V, C. cbn [report cerr dataVector].
  now rewrite flush_if_full_cerr.
Qed.

(** C4, as the code has it.  On an active session and with lists of
    different sizes, the begin and the end call with arguments report the
    error and append the record of their overload without arguments (which
    they call without a thread id); the counter call reports the error and
    appends nothing.  The records must fit the scratch buffer. *)
Theorem mismatched_lists_degrade_or_drop :
  forall (TRACE_MAX : nat) (st : state) (name categories : string)
         (ns vs : list string) (tid now : Z),
    traceActive st = true ->
    length ns <> length vs ->
    (fits (fmt_begin name categories TID_VALUE (ts_at (startTime st) now) ++ CLOSE)
     = true ->
     exists st',
       exec TRACE_MAX (EventStartArgs name categories ns vs tid now) st = Done st'
       /\ cerr st' = cerr st ++ mismatch_begin name
       /\ dataVector st'
          = (dataVector (flush_if_full st)
               ++ [(fmt_begin name categories TID_VALUE
                      (ts_at (startTime st) now) ++ CLOSE)%string])%list)
    /\ (fits (fmt_end TID_VALUE (ts_at (startTime st) now) ++ CLOSE) = true ->
        exists st',
          exec TRACE_MAX (EventEndArgs ns vs tid now) st = Done st'
          /\ cerr st' = cerr st ++ mismatch_end
          /\ dataVector st'
             = (dataVector (flush_if_full st)
                  ++ [(fmt_end TID_VALUE (ts_at (startTime st) now)
                         ++ CLOSE)%string])%list)
    /\ exists st',
         exec TRACE_MAX (Counter name ns vs tid now) st = Done st'
         /\ cerr st' = cerr st ++ mismatch_counter name
         /\ dataVector st' = dataVector (flush_if_full st).
Proof.
  intros TRACE_MAX st name categories ns vs tid now A L.
  split; [|split].
  - intros F. cbn [exec]. now apply begin_mismatch_result.
  - intros F. cbn [exec]. now apply end_mismatch_result.
  - cbn [exec]. rewrite trace_counter_mismatch by assumption.
    eexists. split; [reflexivity|]. cbn [report cerr dataVector].
    now rewrite flush_if_full_cerr.
Qed.

Lemma mismatched_lists_witness :
  exists st',
    exec 4 (Counter "c" ["a"; "b"] ["1"] 7 3000) one_buffered = Done st'
    /\ cerr st' = cerr one_buffered ++ mismatch_counter "c"
    /\ dataVector st' = dataVector (flush_if_full one_buffered).
Proof.
  apply (mismatched_lists_degrade_or_drop 4 one_buffered "c" "cat"
           ["a"; "b"] ["1"] 7 3000); [reflexivity | discriminate].
Defined.

(** C4 as it is written fails for the counter: with keys and values of
    different sizes the call leaves the vector as it was. *)
Lemma counter_mismatch_appends_nothing :
  exists st',
    exec 4 (Counter "c" ["a"; "b"] ["1"] 7 3000) one_buffered = Done st'
    /\ dataVector st' = dataVector one_buffered
    /\ length (dataVector st') = 1%nat.
Proof.
  eexists. split; [vm_compute; reflexivity|]. split; vm_compute; reflexivity.
Qed.



(** ** The capacity of the vector *)

Lemma appends_in_session (c : call) : appends c = true -> in_session c = true.
Proof. destruct c; cbn; intros H; try discriminate; reflexivity. Qed.

Lemma forallb_impl (A : Type) (f g : A -> bool) (l : list A) :
  (forall x, f x = true -> g x = true) ->
  forallb f l = true -> forallb g l = true.
Proof.
  intros H. induction l as [|x l IH]; cbn; [reflexivity|].
  intros E. apply andb_true_iff in E as [E1 E2].
  now rewrite (H _ E1), IH.
Qed.

(** After a sequence of calls that ends with one that appends, the vector
    is not empty. *)
Lemma session_run_nonempty (TRACE_MAX : nat) (p : string) (origin : Z)
    (cs : list call) (recs : list string) (st : state) :
  session p origin recs st ->
  cs <> [] ->
  forallb appends cs = true ->
  forallb (call_fits origin) cs = true ->
  forall st', run TRACE_MAX cs st = Done st' -> dataVector st' <> [].
Proof.
  intros S N A F st' H.
  destruct (exists_last N) as (cs' & c & ->).
  rewrite forallb_app in A, F. cbn [forallb] in A, F.
  apply andb_true_iff in A as [A1 A2]. apply andb_true_iff in F as [F1 F2].
  rewrite andb_true_r in A2, F2.
  destruct (session_run TRACE_MAX cs' S
              (forallb_impl _ _ _ appends_in_session A1) F1) as (st1 & E1 & S1).
  rewrite run_app, E1 in H. cbn [bind run] in H.
  destruct (session_step TRACE_MAX c S1 (appends_in_session _ A2) F2)
    as (st2 & E2 & _ & X).
  rewrite E2 in H. cbn [bind] in H. apply Done_inj in H. subst st'.
  now apply X.
Qed.

(** *** Records that do not fit *)

Lemma sprintf_done (s : string) (st st' : state) :
  sprintf s st = Done st' -> fits s = true /\ st' = set_stringBuffer s st.
Proof.
  unfold sprintf. destruct (fits s); [|discriminate].
  intros H. apply Done_inj in H. now split.
Qed.

Lemma args_loop_done (names values : list string) :
  forall st st',
    length names = length values ->
    args_loop names values st = Done st' ->
    stringBuffer st' = stringBuffer st ++ args_text names values.
Proof.
  revert values.
  induction names as [|n names IH]; intros [|v values] st st' L H;
    try discriminate; cbn [args_loop args_text] in *.
  - apply Done_inj in H. subst. now rewrite append_nil_r.
  - injection L as L.
    destruct (sprintf_cat (quoted n ++ ": " ++ v) st) as [st1|] eqn:E1;
      [|discriminate]. cbn [bind] in H.
    apply sprintf_done in E1 as [_ ->].
    destruct names as [|n' names'].
    + cbn [bind] in H. apply (IH _ _ _ L) in H. rewrite H.
      cbn [stringBuffer set_stringBuffer]. now rewrite !append_assoc.
    + destruct (sprintf_cat ", " (set_stringBuffer
                  (stringBuffer st ++ quoted n ++ ": " ++ v) st))
        as [st2|] eqn:E2; [|discriminate].
      cbn [bind] in H. apply sprintf_done in E2 as [_ ->].
      apply (IH _ _ _ L) in H. rewrite H.
      cbn [stringBuffer set_stringBuffer]. now rewrite !append_assoc.
Qed.

Lemma args_tail_done (h : string) (ns vs : list string) (st st' : state) :
  length ns = length vs ->
  bind (sprintf (h ++ ARGS_OPEN) st) (finish_args ns vs) = Done st' ->
  fits ((h ++ ARGS_OPEN ++ args_text ns vs ++ "} }") ++ SEP) = true.
Proof.
  intros L H.
  destruct (sprintf (h ++ ARGS_OPEN) st) as [st1|] eqn:E1; [|discriminate].
  cbn [bind] in H. apply sprintf_done in E1 as [_ ->].
  unfold finish_args in H.
  destruct (args_loop ns vs (set_stringBuffer (h ++ ARGS_OPEN) st))
    as [st2|] eqn:E2; [|discriminate].
  cbn [bind] in H. apply (args_loop_done _ _ _ L) in E2.
  destruct (sprintf_cat ARGS_CLOSE st2) as [st3|] eqn:E3; [|discriminate].
  apply sprintf_done in E3 as [F _]. rewrite E2 in F.
  cbn [stringBuffer set_stringBuffer] in F.
  unfold ARGS_CLOSE in F. now rewrite !append_assoc in *.
Qed.

(** An emitting call on an active session completes only if its record
    fits the scratch buffer. *)
Lemma exec_emit_done_fits (TRACE_MAX : nat) (c : call) (st st' : state)
    (o : string) :
  traceActive st = true ->
  object_of (startTime st) c = Some o ->
  exec TRACE_MAX c st = Done st' ->
  fits (o ++ SEP) = true.
Proof.
  intros A O H.
  assert (P : forall h s, bind (sprintf (h ++ CLOSE) s)
                            (fun x => Done (push_back x)) = Done st' ->
                          fits ((h ++ "}") ++ SEP) = true).
  { intros h s E. destruct (sprintf (h ++ CLOSE) s) eqn:E1; [|discriminate].
    apply sprintf_done in E1 as [F _]. now rewrite record_assoc. }
  destruct c as [f ok t| | |n cat tid now|n cat ns vs tid now|tid now
                |ns vs tid now|n ptr tid now|n ptr tid now|n tid now
                |n ks vs tid now];
    cbn [object_of] in O; try discriminate; cbn [exec] in H.
  - apply Some_inj in O; subst o.
    unfold trace_event_start in H. rewrite A in H. cbn [negb] in H.
    rewrite timestamp_flush_if_full in H. now apply P in H.
  - unfold trace_event_start_args in H. rewrite A in H. cbn [negb] in H.
    destruct (Nat.eqb (length ns) (length vs)) eqn:L;
      apply Some_inj in O; subst o; cbn [negb] in H.
    + apply Nat.eqb_eq in L. rewrite timestamp_flush_if_full in H.
      now apply args_tail_done in H.
    + unfold trace_event_start in H. cbn [report traceActive] in H.
      rewrite flush_if_full_active, A in H. cbn [negb] in H.
      rewrite flush_if_full_report, flush_if_full_twice in H.
      unfold timestamp in H. cbn [report startTime] in H.
      destruct (flush_if_full_same_clock st) as [_ T]. rewrite T in H.
      now apply P in H.
  - apply Some_inj in O; subst o.
    unfold trace_event_end in H. rewrite A in H. cbn [negb] in H.
    rewrite timestamp_flush_if_full in H. now apply P in H.
  - unfold trace_event_end_args in H. rewrite A in H. cbn [negb] in H.
    destruct (Nat.eqb (length ns) (length vs)) eqn:L;
      apply Some_inj in O; subst o; cbn [negb] in H.
    + apply Nat.eqb_eq in L. rewrite timestamp_flush_if_full in H.
      now apply args_tail_done in H.
    + unfold trace_event_end in H. cbn [report traceActive] in H.
      rewrite flush_if_full_active, A in H. cbn [negb] in H.
      rewrite flush_if_full_report, flush_if_full_twice in H.
      unfold timestamp in H. cbn [report startTime] in H.
      destruct (flush_if_full_same_clock st) as [_ T]. rewrite T in H.
      now apply P in H.
  - apply Some_inj in O; subst o.
    unfold trace_object_new in H. rewrite A in H. cbn [negb] in H.
    rewrite timestamp_flush_if_full in H. now apply P in H.
  - apply Some_inj in O; subst o.
    unfold trace_object_gone in H. rewrite A in H. cbn [negb] in H.
    rewrite timestamp_flush_if_full in H. now apply P in H.
  - apply Some_inj in O; subst o.
    unfold trace_instant_global in H. rewrite A in H. cbn [negb] in H.
    rewrite timestamp_flush_if_full in H. now apply P in H.
  - unfold trace_counter in H. rewrite A in H. cbn [negb] in H.
    destruct (Nat.eqb (length ks) (length vs)) eqn:L; [|discriminate].
    apply Some_inj in O; subst o; cbn [negb] in H.
    apply Nat.eqb_eq in L. rewrite timestamp_flush_if_full in H.
    now apply args_tail_done in H.
Qed.

(** A session with a call whose record does not fit is undefined, whatever
    the capacity. *)
Lemma session_run_undefined (TRACE_MAX : nat) (p : string) (origin : Z)
    (cs : list call) :
  forall (recs : list string) (st : state),
    session p origin recs st ->
    forallb in_session cs = true ->
    forallb (call_fits origin) cs = false ->
    run TRACE_MAX cs st = Undefined.
Proof.
  induction cs as [|c cs IH]; intros recs st S I F; [discriminate|].
  cbn [forallb] in I, F. apply andb_true_iff in I as [I1 I2].
  cbn [run].
  destruct (call_fits origin c) eqn:F1.
  - cbn [andb] in F.
    destruct (session_step TRACE_MAX c S I1 F1) as (st1 & E & S1 & _).
    rewrite E. cbn [bind]. now apply (IH _ _ S1).
  - destruct (exec TRACE_MAX c st) as [st1|] eqn:E; [|reflexivity].
    exfalso. unfold call_fits in F1.
    destruct (object_of origin c) as [o|] eqn:O; [|discriminate].
    assert (A : traceActive st = true) by apply S.
    assert (T : startTime st = origin) by apply S.
    rewrite <- T in O.
    rewrite (exec_emit_done_fits TRACE_MAX c st A O E) in F1. discriminate.
Qed.

(** The file a session leaves at [p], for every capacity. *)
Lemma session_file_after (TRACE_MAX : nat) (p : string) (t0 : Z)
    (cs : list call) (st : state) :
  idle st ->
  cs <> [] ->
  forallb appends cs = true ->
  file_after p (run TRACE_MAX (Start p true t0 :: cs ++ [End]) st)
  = if forallb (call_fits (session_origin st t0)) cs
    then Done (Some (unbounded_document (session_origin st t0) cs))
    else Undefined.
Proof.
  intros I N A.
  assert (IS : forallb in_session cs = true)
    by exact (forallb_impl _ _ _ appends_in_session A).
  destruct (start_session TRACE_MAX p t0 I) as (S0 & _).
  destruct (forallb (call_fits (session_origin st t0)) cs) eqn:F.
  - destruct (session_document TRACE_MAX p t0 cs I IS F) as (st1 & E1 & _ & X).
    destruct X as (st2 & E2 & D2 & _).
    + cbn [run exec bind] in E1.
      exact (@session_run_nonempty TRACE_MAX p _ cs [] _ S0 N A F _ E1).
    + rewrite E2. cbn [file_after]. now rewrite D2.
  - cbn [run exec bind]. rewrite run_app.
    now rewrite (session_run_undefined TRACE_MAX cs S0 IS F).
Qed.

(** C3.  A session of [TRACE_MAX + k] calls that each emit an event, with
    [k >= 1], leaves the same file as the same session run with a capacity
    that is never reached; and when the records fit the scratch buffer, that
    file is the document of the calls with no capacity limit: every record,
    in call order, whatever was flushed on the way. *)
Theorem capacity_flush_is_invisible :
  forall (TRACE_MAX k : nat) (p : string) (t0 : Z) (cs : list call) (st : state),
    idle st ->
    (1 <= k)%nat ->
    length cs = (TRACE_MAX + k)%nat ->
    forallb appends cs = true ->
    (forall M, (length cs <= M)%nat ->
       file_after p (run TRACE_MAX (Start p true t0 :: cs ++ [End]) st)
       = file_after p (run M (Start p true t0 :: cs ++ [End]) st))
    /\ (forallb (call_fits (session_origin st t0)) cs = true ->
        file_after p (run TRACE_MAX (Start p true t0 :: cs ++ [End]) st)
        = Done (Some (unbounded_document (session_origin st t0) cs))).
Proof.
  intros TRACE_MAX k p t0 cs st I K L A.
  assert (N : cs <> []).
  { intros ->. cbn in L. lia. }
  split.
  - intros M _. now rewrite !session_file_after.
  - intros F. now rewrite session_file_after, F.
Qed.

Lemma capacity_flush_witness :
  file_after "trace.json"
    (run 4 (Start "trace.json" true 0 :: six_instants ++ [End]) initial)
  = Done (Some (unbounded_document (session_origin initial 0) six_instants)).
Proof.
  apply (proj2 (@capacity_flush_is_invisible 4 2 "trace.json" 0 six_instants
                  initial (conj eq_refl (conj eq_refl eq_refl))
                  (le_S 1 1 (le_n 1)) eq_refl eq_refl)).
  vm_compute. reflexivity.
Defined.

(** ** Timestamps *)










(** ** Reading JSON text *)

Module JsonFacts.
Import Json.

Lemma feed_app (o : option config) (a b : string) :
  feed o (a ++ b) = feed (feed o a) b.
Proof.
  revert o. induction a as [|c a IH]; intros o; cbn; [reflexivity | apply IH].
Qed.

Lemma feed_None (s : string) : feed None s = None.
Proof. induction s as [|c s IH]; cbn; [reflexivity | exact IH]. Qed.

Lemma step_plain (k : bool) (stk : list frame) (c : ascii) :
  is_plain c = true -> step (MStr k, stk) c = Some (MStr k, stk).
Proof.
  intros H. unfold step. cbn [fst snd delta].
  assert (P := H). unfold is_plain in P.
  destruct (Nat.eqb (code c) 34); [now rewrite andb_false_r in P|].
  destruct (Nat.eqb (code c) 92); [now rewrite andb_false_r in P|].
  now rewrite H.
Qed.

Lemma feed_plain (k : bool) (stk : list frame) (s : string) :
  plain s = true -> feed (Some (MStr k, stk)) s = Some (MStr k, stk).
Proof.
  induction s as [|c s IH]; cbn [plain feed]; [reflexivity|].
  intros H. apply andb_true_iff in H as [H1 H2].
  rewrite step_plain by assumption. now apply IH.
Qed.

(** *** Values do not look below the stack they start on *)

Ltac split_ifs :=
  repeat match goal with
         | |- context [if ?b then _ else _] => destruct b
         | |- context [match ?x with EmptyString => _ | String _ _ => _ end] =>
             destruct x
         | |- context [match ?x with O => _ | S _ => _ end] => destruct x
         end.

Lemma delta_frame (m m' : mode) (c : ascii) (a : action) (top : option frame) :
  delta m None c = Some (m', a) ->
  a <> Pop ->
  top <> Some FTop ->
  delta m top c = Some (m', a).
Proof.
  intros H A T.
  destruct top as [[| |]|]; [contradiction | | | exact H];
    destruct m; cbn [delta] in *; unfold begin_value, after_value in *;
    revert H; split_ifs; intros H; try discriminate; try exact H;
    apply Some_inj in H; injection H as <- <-; contradiction.
Qed.

Lemma step_frame (m m' : mode) (s s' k : list frame) (c : ascii) :
  step (m, s) c = Some (m', s') ->
  hd_error k <> Some FTop ->
  step (m, (s ++ k)%list) c = Some (m', (s' ++ k)%list).
Proof.
  unfold step. cbn [fst snd]. intros H T.
  destruct s as [|f s].
  - change (([] ++ k)%list) with k.
    change (hd_error (@nil frame)) with (@None frame) in H.
    destruct (delta m None c) as [[m1 a]|] eqn:D; [|discriminate].
    assert (A : a <> Pop).
    { intros ->. discriminate. }
    rewrite (@delta_frame m m1 c a (hd_error k) D A T).
    destruct a; cbn [apply_action] in *; try contradiction;
      apply Some_inj in H; injection H as <- <-; reflexivity.
  - change (((f :: s) ++ k)%list) with (f :: (s ++ k)%list).
    change (hd_error (f :: (s ++ k)%list)) with (Some f).
    change (hd_error (f :: s)) with (Some f) in H.
    destruct (delta m (Some f) c) as [[m1 a]|]; [|discriminate].
    destruct a; cbn [apply_action] in *;
      apply Some_inj in H; injection H as <- <-; reflexivity.
Qed.

Lemma feed_frame (v : string) :
  forall (m m' : mode) (s s' k : list frame),
    feed (Some (m, s)) v = Some (m', s') ->
    hd_error k <> Some FTop ->
    feed (Some (m, (s ++ k)%list)) v = Some (m', (s' ++ k)%list).
Proof.
  induction v as [|c v IH]; intros m m' s s' k H T; cbn [feed] in *.
  - apply Some_inj in H. injection H as <- <-. reflexivity.
  - destruct (step (m, s) c) as [[m1 s1]|] eqn:E.
    + rewrite (@step_frame m m1 s s1 k c E T). now apply IH.
    + now rewrite feed_None in H.
Qed.

Lemma value_is_value (v : string) : value v = true -> is_value v.
Proof.
  unfold value. intros H stk.
  destruct (feed (Some (MVal, [])) v) as [[m [|f s]]|] eqn:E; try discriminate.
  exists m. split; [|exact H].
  apply (@feed_frame v MVal m [] [] (FObj :: stk)) in E;
    [exact E | discriminate].
Qed.

Lemma quoted_is_value (s : string) : plain s = true -> is_value (quoted s).
Proof.
  intros P stk. exists MAfter. split; [|reflexivity].
  unfold quoted. rewrite !feed_app.
  change (feed (Some (MVal, FObj :: stk)) DQ) with (Some (MStr false, FObj :: stk)).
  now rewrite feed_plain.
Qed.

(** *** Numbers *)

Lemma nzhead_not_D0 (u u' : uint) : nzhead u <> D0 u'.
Proof. induction u; cbn; try discriminate. exact IHu. Qed.

(** The decimal digits of a positive number do not start with a zero. *)
Lemma to_uint_head (p : positive) :
  match Pos.to_uint p with
  | Nil | D0 _ => False
  | _ => True
  end.
Proof.
  assert (U : unorm (Pos.to_uint p) = Pos.to_uint p).
  { rewrite <- DecimalPos.Unsigned.to_of, DecimalPos.Unsigned.of_to.
    reflexivity. }
  pose proof (DecimalPos.Unsigned.to_uint_nonzero p) as Z.
  pose proof (DecimalPos.Unsigned.to_uint_nonnil p) as N.
  destruct (Pos.to_uint p) as [|u| | | | | | | | |]; try exact I.
  - now apply N.
  - unfold unorm in U. cbn [nzhead] in U.
    destruct (nzhead u) as [|u0| | | | | | | | |] eqn:E; try discriminate.
    + apply Z. exact (eq_sym U).
    + exact (@nzhead_not_D0 u u0 E).
Qed.

Lemma feed_digits (stk : list frame) (d : uint) :
  feed (Some (MInt, stk)) (NilEmpty.string_of_uint d) = Some (MInt, stk).
Proof.
  induction d; cbn [NilEmpty.string_of_uint feed]; try exact IHd. reflexivity.
Qed.

Lemma feed_positive (m : mode) (stk : list frame) (p : positive) :
  m = MMinus \/ m = MVal ->
  feed (Some (m, FObj :: stk)) (NilZero.string_of_uint (Pos.to_uint p))
  = Some (MInt, FObj :: stk).
Proof.
  intros M. pose proof (to_uint_head p) as H.
  destruct (Pos.to_uint p) as [|u|u|u|u|u|u|u|u|u|u]; try contradiction;
    cbn [NilZero.string_of_uint NilEmpty.string_of_uint feed];
    destruct M as [-> | ->];
    match goal with
    | |- feed ?o _ = _ =>
        change o with (Some (MInt, FObj :: stk)); apply feed_digits
    end.
Qed.

Lemma int_is_value (z : Z) : is_value (render_int z).
Proof.
  intros stk. unfold render_int.
  destruct z as [|p|p]; cbn [Z.to_int NilZero.string_of_int].
  - exists MZero. split; reflexivity.
  - exists MInt. split; [|reflexivity]. apply feed_positive. now right.
  - exists MInt. split; [|reflexivity]. cbn [feed].
    change (step (MVal, FObj :: stk) "-") with (Some (MMinus, FObj :: stk)).
    apply feed_positive. now left.
Qed.

(** *** Members of an object *)

Lemma feed_open (m : mode) (stk : list frame) (rest : string) :
  m = MElemFirst \/ m = MVal ->
  feed (Some (m, stk)) ("{" ++ rest) = feed (Some (MMemFirst, FObj :: stk)) rest.
Proof. intros [-> | ->]; reflexivity. Qed.

Lemma feed_key (m : mode) (stk : list frame) (k rest : string) :
  m = MMemFirst \/ m = MKey ->
  plain k = true ->
  feed (Some (m, FObj :: stk)) (quoted k ++ ": " ++ rest)
  = feed (Some (MVal, FObj :: stk)) rest.
Proof.
  intros M P. unfold quoted. rewrite !feed_app.
  assert (E : feed (Some (m, FObj :: stk)) DQ = Some (MStr true, FObj :: stk))
    by (destruct M as [-> | ->]; reflexivity).
  rewrite E, feed_plain by assumption. reflexivity.
Qed.

Lemma feed_after_value (m : mode) (stk : list frame) (c : ascii) :
  value_done m = true ->
  is_digit c = false -> Ascii.eqb c "." = false -> is_exp c = false ->
  step (m, stk) c = step (MAfter, stk) c.
Proof.
  intros D A B C. unfold step. cbn [fst snd].
  destruct m; try discriminate; cbn [delta]; now rewrite ?A, ?B, ?C.
Qed.

Lemma feed_value_comma (stk : list frame) (v rest : string) :
  is_value v ->
  feed (Some (MVal, FObj :: stk)) (v ++ ", " ++ rest)
  = feed (Some (MKey, FObj :: stk)) rest.
Proof.
  intros V. destruct (V stk) as (m & E & D).
  rewrite feed_app, E. cbn [append feed].
  rewrite (@feed_after_value m (FObj :: stk) ","%char D) by reflexivity.
  reflexivity.
Qed.

Lemma feed_value_close (stk : list frame) (v rest : string) :
  is_value v ->
  feed (Some (MVal, FObj :: stk)) (v ++ "}" ++ rest)
  = feed (Some (MAfter, stk)) rest.
Proof.
  intros V. destruct (V stk) as (m & E & D).
  rewrite feed_app, E. cbn [append feed].
  rewrite (@feed_after_value m (FObj :: stk) "}"%char D) by reflexivity.
  reflexivity.
Qed.

Lemma feed_value_end (stk : list frame) (v : string) :
  is_value v ->
  feed (Some (MVal, FObj :: stk)) (v ++ "}") = Some (MAfter, stk).
Proof.
  intros V. rewrite <- (append_nil_r "}"), feed_value_close by assumption.
  reflexivity.
Qed.

Lemma feed_args_open (stk : list frame) (rest : string) :
  feed (Some (MKey, FObj :: stk)) (quoted "args" ++ ": { " ++ rest)
  = feed (Some (MMemFirst, FObj :: FObj :: stk)) rest.
Proof. unfold quoted. rewrite !feed_app. reflexivity. Qed.

(** The pairs the argument loop prints, when there is at least one. *)
Lemma feed_args_pairs (ns : list string) :
  forall (vs : list string) (m : mode) (stk : list frame) (rest : string),
    ns <> [] ->
    length ns = length vs ->
    m = MMemFirst \/ m = MKey ->
    forallb plain ns = true ->
    forallb value vs = true ->
    feed (Some (m, FObj :: stk)) (args_text ns vs ++ "}" ++ rest)
    = feed (Some (MAfter, stk)) rest.
Proof.
  induction ns as [|n ns IH]; intros [|v vs] m stk rest N L M P V;
    try contradiction; try discriminate.
  cbn [forallb] in P, V. apply andb_true_iff in P as [P1 P2].
  apply andb_true_iff in V as [V1 V2]. injection L as L.
  cbn [args_text]. rewrite !append_assoc.
  rewrite feed_key by assumption.
  destruct ns as [|n' ns'].
  - destruct vs; [|discriminate].
    change (v ++ EmptyString ++ args_text [] [] ++ "}" ++ rest)
      with (v ++ "}" ++ rest).
    now rewrite feed_value_close by now apply value_is_value.
  - rewrite feed_value_comma by now apply value_is_value.
    apply IH; [discriminate | assumption | now right | assumption..].
Qed.

Lemma feed_args_close (ns vs : list string) (stk : list frame) :
  length ns = length vs ->
  forallb plain ns = true ->
  forallb value vs = true ->
  feed (Some (MMemFirst, FObj :: FObj :: stk)) (args_text ns vs ++ "} }")
  = Some (MAfter, stk).
Proof.
  intros L P V. destruct ns as [|n ns].
  - reflexivity.
  - change "} }" with ("}" ++ " }").
    rewrite feed_args_pairs; [reflexivity | discriminate | assumption
                              | now left | assumption..].
Qed.

(** *** The objects of the calls *)

Create HintDb json.
#[local] Hint Resolve quoted_is_value int_is_value value_is_value : json.
#[local] Hint Extern 1 (plain _ = true) => reflexivity : json.
#[local] Hint Extern 1 (_ \/ _) => (left; reflexivity) : json.
#[local] Hint Extern 1 (_ \/ _) => (right; reflexivity) : json.

Ltac members :=
  repeat first
    [ rewrite feed_key by auto with json
    | rewrite feed_value_comma by auto with json
    | rewrite feed_value_end by auto with json
    | rewrite feed_args_open
    | rewrite feed_args_close by assumption ].

Ltac object :=
  let m := fresh "m" in
  let M := fresh "M" in
  intros m M;
  unfold fmt_begin, fmt_end, fmt_object, fmt_instant, fmt_counter,
    fmt_pid_tid, fmt_ts, ARGS_OPEN;
  rewrite !append_assoc;
  rewrite feed_open by exact M;
  members; reflexivity.

Lemma object_of_is_object (origin : Z) (c : call) (o : string) :
  call_json_safe c = true ->
  object_of origin c = Some o ->
  is_object o.
Proof.
  intros S O.
  destruct c as [f ok t| | |n cat tid now|n cat ns vs tid now|tid now
                |ns vs tid now|n ptr tid now|n ptr tid now|n tid now
                |n ks vs tid now];
    cbn [object_of call_json_safe] in *; try discriminate.
  - apply Some_inj in O; subst o.
    apply andb_true_iff in S as [S1 S2]. object.
  - apply andb_true_iff in S as [S S3]. apply andb_true_iff in S as [S1 S2].
    destruct (Nat.eqb (length ns) (length vs)) eqn:L;
      apply Some_inj in O; subst o.
    + cbn [negb orb] in S3. apply andb_true_iff in S3 as [P V].
      apply Nat.eqb_eq in L. object.
    + object.
  - apply Some_inj in O; subst o. object.
  - destruct (Nat.eqb (length ns) (length vs)) eqn:L;
      apply Some_inj in O; subst o.
    + cbn [negb orb] in S. apply andb_true_iff in S as [P V].
      apply Nat.eqb_eq in L. object.
    + object.
  - apply Some_inj in O; subst o. object.
  - apply Some_inj in O; subst o. object.
  - apply Some_inj in O; subst o. object.
  - destruct (Nat.eqb (length ks) (length vs)) eqn:L; [|discriminate].
    apply Some_inj in O; subst o.
    cbn [negb orb] in S. apply andb_true_iff in S as [S V].
    apply andb_true_iff in S as [S1 P].
    apply Nat.eqb_eq in L. object.
Qed.

Lemma objects_of_are_objects (origin : Z) (cs : list call) :
  forallb call_json_safe cs = true ->
  Forall is_object (objects_of origin cs).
Proof.
  induction cs as [|c cs IH]; cbn [forallb objects_of]; [constructor|].
  intros H. apply andb_true_iff in H as [H1 H2].
  destruct (object_of origin c) as [o|] eqn:O; [|now apply IH].
  constructor; [now apply (object_of_is_object origin c) | now apply IH].
Qed.

(** *** The document *)

Lemma feed_join_objects (os : list string) :
  forall m,
    os <> [] ->
    m = MElemFirst \/ m = MVal ->
    Forall is_object os ->
    feed (Some (m, [FTop])) (join_objects os) = Some (MAfter, [FTop]).
Proof.
  induction os as [|o os IH]; intros m N M F; [contradiction|].
  inversion F as [|? ? F1 F2]; subst.
  destruct os as [|o' os'].
  - now apply F1.
  - change (join_objects (o :: o' :: os'))
      with (o ++ SEP ++ join_objects (o' :: os')).
    rewrite !feed_app, (F1 m M).
    change (feed (Some (MAfter, [FTop])) SEP) with (Some (MVal, [FTop])).
    apply IH; [discriminate | now right | assumption].
Qed.

(** A document whose elements are objects is a JSON array of objects. *)
Lemma document_is_array (os : list string) :
  Forall is_object os ->
  array_of_objects ("[" ++ NL ++ join_objects os ++ NL ++ "]") = true.
Proof.
  intros F. destruct os as [|o os]; [reflexivity|].
  unfold array_of_objects. rewrite !feed_app.
  change (feed (feed (Some (MDoc, [])) "[") NL) with (Some (MElemFirst, [FTop])).
  rewrite feed_join_objects;
    [reflexivity | discriminate | now left | assumption].
Qed.

(** *** The recogniser on small texts *)

Example accepts_empty_array : array_of_objects "[]" = true.
Proof. reflexivity. Qed.

Example accepts_two_objects :
  array_of_objects ("[{" ++ quoted "a" ++ ": [1, -2.5e+3, true, null]}, {}]")
  = true.
Proof. reflexivity. Qed.

Example rejects_trailing_comma : array_of_objects "[{},]" = false.
Proof. reflexivity. Qed.

Example rejects_leading_comma : array_of_objects "[,{}]" = false.
Proof. reflexivity. Qed.

Example rejects_missing_bracket : array_of_objects "[{}" = false.
Proof. reflexivity. Qed.

Example rejects_element_that_is_no_object : array_of_objects "[1]" = false.
Proof. reflexivity. Qed.

Example rejects_bare_key :
  array_of_objects ("[{a: 1}]") = false.
Proof. reflexivity. Qed.

Example rejects_leading_zero : value "01" = false.
Proof. reflexivity. Qed.

End JsonFacts.

(** ** The file of a session *)

Lemma call_json_safe_in_session (c : call) :
  call_json_safe c = true -> in_session c = true.
Proof. destruct c; cbn; intros H; try discriminate; reflexivity. Qed.

(** C1, as the code has it.  Take a session that starts from an idle state
    and makes any sequence of emitting calls and flushes, such that the
    names, categories and argument names passed need no escaping, the
    argument values are JSON values and the records fit the scratch buffer.
    If a record is in the vector when the end is called, the session
    completes, the stream is closed, and the file holds a JSON array of
    objects: the records in call order, no comma before the first and none
    after the last. *)
Theorem session_file_is_json_array :
  forall (TRACE_MAX : nat) (p : string) (t0 : Z) (cs : list call) (st : state),
    idle st ->
    forallb call_json_safe cs = true ->
    forallb (call_fits (session_origin st t0)) cs = true ->
    buffered_at_end TRACE_MAX (Start p true t0 :: cs) st ->
    exists st2 doc,
      run TRACE_MAX (Start p true t0 :: cs ++ [End]) st = Done st2
      /\ disk st2 p = Some doc
      /\ doc = unbounded_document (session_origin st t0) cs
      /\ Json.array_of_objects doc = true
      /\ is_open st2 = false.
Proof.
  intros TRACE_MAX p t0 cs st I S F (st0 & E0 & N).
  assert (IS : forallb in_session cs = true)
    by exact (forallb_impl _ _ _ call_json_safe_in_session S).
  destruct (session_document TRACE_MAX p t0 cs I IS F) as (st1 & E1 & _ & X).
  rewrite E1 in E0. apply Done_inj in E0. subst st0.
  destruct (X N) as (st2 & E2 & D2 & I2).
  exists st2, (unbounded_document (session_origin st t0) cs).
  split; [exact E2|]. split; [exact D2|]. split; [reflexivity|]. split.
  - apply JsonFacts.document_is_array.
    now apply JsonFacts.objects_of_are_objects.
  - destruct I2 as (_ & _ & C). unfold is_open. now rewrite C.
Qed.

Lemma session_file_witness :
  exists st2 doc,
    run 4 (Start "trace.json" true 0 :: mixed_session ++ [End]) initial
    = Done st2
    /\ disk st2 "trace.json" = Some doc
    /\ doc = unbounded_document (session_origin initial 0) mixed_session
    /\ Json.array_of_objects doc = true
    /\ is_open st2 = false.
Proof.
  apply (@session_file_is_json_array 4 "trace.json" 0 mixed_session initial).
  - repeat split.
  - vm_compute. reflexivity.
  - vm_compute. reflexivity.
  - eexists. split; [vm_compute; reflexivity | discriminate].
Defined.

(** C1 as it is written fails.  A name that holds a quote is printed as it
    is, and the file of the session is then no JSON; and a session without
    events has no defined outcome, because its end is undefined (see C2). *)
Lemma unescaped_name_breaks_the_document :
  (exists st' doc,
      run 4 [Start "trace.json" true 0;
             InstantGlobal ("say " ++ quoted "hi") 1 1000; End] initial
      = Done st'
      /\ disk st' "trace.json" = Some doc
      /\ Json.array_of_objects doc = false)
  /\ run 4 [Start "trace.json" true 0; End] initial = Undefined.
Proof.
  split; [|vm_compute; reflexivity].
  eexists. eexists. split; [vm_compute; reflexivity|].
  split; vm_compute; reflexivity.
Qed.

(** * Properties of the whole library *)

(** ** The state after an emitting call *)

Lemma args_loop_buffer (names values : list string) :
  forall st st',
    args_loop names values st = Done st' ->
    exists b, st' = set_stringBuffer b st.
Proof.
  revert values.
  induction names as [|n names IH]; intros [|v values] st st' H;
    cbn [args_loop] in H; try discriminate.
  - apply Done_inj in H. subst st'. exists (stringBuffer st).
    now rewrite set_stringBuffer_same.
  - apply Done_inj in H. subst st'. exists (stringBuffer st).
    now rewrite set_stringBuffer_same.
  - destruct (sprintf_cat (quoted n ++ ": " ++ v) st) as [st1|] eqn:E1;
      [|discriminate]. cbn [bind] in H.
    apply sprintf_done in E1 as [_ ->].
    destruct names as [|n' names'].
    + cbn [bind] in H. apply IH in H as [b ->]. exists b.
      apply set_stringBuffer_twice.
    + destruct (sprintf_cat ", " (set_stringBuffer
                  (stringBuffer st ++ quoted n ++ ": " ++ v) st))
        as [st2|] eqn:E2; [|discriminate].
      cbn [bind] in H. apply sprintf_done in E2 as [_ ->].
      rewrite set_stringBuffer_twice in H.
      apply IH in H as [b ->]. exists b. apply set_stringBuffer_twice.
Qed.

Lemma plain_shape (h : string) (s st' : state) :
  bind (sprintf (h ++ CLOSE) s) (fun x => Done (push_back x)) = Done st' ->
  exists r, ends_with_sep r /\ st' = push_back (set_stringBuffer r s).
Proof.
  intros H. destruct (sprintf (h ++ CLOSE) s) as [s1|] eqn:E; [|discriminate].
  cbn [bind] in H. apply Done_inj in H. apply sprintf_done in E as [_ ->].
  exists (h ++ CLOSE). split; [|now subst].
  exists (h ++ "}"). symmetry. apply record_assoc.
Qed.

Lemma args_shape (h : string) (ns vs : list string) (s st' : state) :
  bind (sprintf (h ++ ARGS_OPEN) s) (finish_args ns vs) = Done st' ->
  exists r, ends_with_sep r /\ st' = push_back (set_stringBuffer r s).
Proof.
  intros H.
  destruct (sprintf (h ++ ARGS_OPEN) s) as [s1|] eqn:E1; [|discriminate].
  cbn [bind] in H. apply sprintf_done in E1 as [_ ->].
  unfold finish_args in H.
  destruct (args_loop ns vs (set_stringBuffer (h ++ ARGS_OPEN) s))
    as [s2|] eqn:E2; [|discriminate].
  cbn [bind] in H. apply args_loop_buffer in E2 as [b ->].
  rewrite set_stringBuffer_twice in H.
  destruct (sprintf_cat ARGS_CLOSE (set_stringBuffer b s)) as [s3|] eqn:E3;
    [|discriminate].
  cbn [bind] in H. apply Done_inj in H. apply sprintf_done in E3 as [_ ->].
  rewrite set_stringBuffer_twice in H. cbn [stringBuffer set_stringBuffer] in H.
  exists (b ++ ARGS_CLOSE). split; [|now subst].
  exists (b ++ "} }"). unfold ARGS_CLOSE. symmetry. apply append_assoc.
Qed.

(** The state after an emitting call of an active session that completes:
    the state after the flush of a full vector and the report of lists of
    different sizes, with one record pushed when the call appends. *)
Lemma emit_shape (TRACE_MAX : nat) (c : call) (st st' : state) :
  is_emit c = true ->
  traceActive st = true ->
  exec TRACE_MAX c st = Done st' ->
  if appends c
  then exists r,
         ends_with_sep r
         /\ st' = push_back (set_stringBuffer r (after_check c st))
  else st' = after_check c st.
Proof.
  intros I A H.
  destruct c as [f ok t| | |n cat tid now|n cat ns vs tid now|tid now
                |ns vs tid now|n ptr tid now|n ptr tid now|n tid now
                |n ks vs tid now];
    try discriminate; unfold appends; cbn [object_of after_check exec] in *.
  - unfold trace_event_start in H. rewrite A in H. now apply plain_shape in H.
  - unfold trace_event_start_args in H. rewrite A in H. cbn [negb] in H.
    destruct (Nat.eqb (length ns) (length vs)); cbn [negb] in H.
    + now apply args_shape in H.
    + unfold trace_event_start in H. cbn [report traceActive] in H.
      rewrite flush_if_full_active, A in H. cbn [negb] in H.
      rewrite flush_if_full_report, flush_if_full_twice in H.
      now apply plain_shape in H.
  - unfold trace_event_end in H. rewrite A in H. now apply plain_shape in H.
  - unfold trace_event_end_args in H. rewrite A in H. cbn [negb] in H.
    destruct (Nat.eqb (length ns) (length vs)); cbn [negb] in H.
    + now apply args_shape in H.
    + unfold trace_event_end in H. cbn [report traceActive] in H.
      rewrite flush_if_full_active, A in H. cbn [negb] in H.
      rewrite flush_if_full_report, flush_if_full_twice in H.
      now apply plain_shape in H.
  - unfold trace_object_new in H. rewrite A in H. now apply plain_shape in H.
  - unfold trace_object_gone in H. rewrite A in H. now apply plain_shape in H.
  - unfold trace_instant_global in H. rewrite A in H.
    now apply plain_shape in H.
  - unfold trace_counter in H. rewrite A in H. cbn [negb] in H.
    destruct (Nat.eqb (length ks) (length vs)); cbn [negb] in H.
    + now apply args_shape in H.
    + now apply Done_inj in H.
Qed.

(** On an inactive session every emitting call returns at once. *)
Lemma emit_inactive (TRACE_MAX : nat) (c : call) (st : state) :
  is_emit c = true ->
  traceActive st = false ->
  exec TRACE_MAX c st = Done st.
Proof.
  intros I A. destruct c; try discriminate; cbn [exec];
    [unfold trace_event_start | unfold trace_event_start_args
    | unfold trace_event_end | unfold trace_event_end_args
    | unfold trace_object_new | unfold trace_object_gone
    | unfold trace_instant_global | unfold trace_counter];
    now rewrite A.
Qed.

(** ** What every reachable state satisfies *)

Lemma stream_put_sb_file (s : string) (st : state) :
  sb_file (traceFile (stream_put s st)) = sb_file (traceFile st).
Proof.
  unfold stream_put. destruct (ios_fail (traceFile st)); [reflexivity|].
  destruct (sb_file (traceFile st)) eqn:E; [exact E|].
  destruct s; [exact E | reflexivity].
Qed.

Lemma put_all_sb_file (v : list string) (st : state) :
  sb_file (traceFile (put_all v st)) = sb_file (traceFile st).
Proof.
  revert st. induction v as [|x v IH]; intros st; [reflexivity|].
  cbn [put_all fold_left]. fold (put_all v (stream_put x st)).
  now rewrite IH, stream_put_sb_file.
Qed.

Lemma trace_flush_facts (st : state) :
  dataVector (trace_flush st) = []
  /\ vcapacity (trace_flush st) = vcapacity st
  /\ traceActive (trace_flush st) = traceActive st
  /\ is_open (trace_flush st) = is_open st
  /\ cerr (trace_flush st) = cerr st.
Proof.
  destruct (put_all_frame (dataVector st) st) as (A & _ & C & _ & _ & _ & E).
  unfold trace_flush, is_open. cbn. rewrite put_all_sb_file.
  repeat split; assumption.
Qed.

(** After the check for a full vector there is room for one record. *)
Lemma flush_if_full_facts (st : state) :
  (length (dataVector st) <= vcapacity st)%nat ->
  (0 < vcapacity st)%nat ->
  (length (dataVector (flush_if_full st)) < vcapacity st)%nat
  /\ (exists front, dataVector st = (front ++ dataVector (flush_if_full st))%list)
  /\ vcapacity (flush_if_full st) = vcapacity st
  /\ traceActive (flush_if_full st) = traceActive st
  /\ is_open (flush_if_full st) = is_open st.
Proof.
  intros L P. unfold flush_if_full.
  destruct (Nat.eqb (length (dataVector st)) (vcapacity st)) eqn:E.
  - destruct (trace_flush_facts st) as (V & C & A & O & _).
    rewrite V, C, A, O. cbn [length]. repeat split; try assumption.
    exists (dataVector st). now rewrite List.app_nil_r.
  - apply Nat.eqb_neq in E. repeat split; try lia. now exists [].
Qed.

Lemma after_check_facts (c : call) (st : state) :
  dataVector (after_check c st) = dataVector (flush_if_full st)
  /\ vcapacity (after_check c st) = vcapacity (flush_if_full st)
  /\ traceActive (after_check c st) = traceActive (flush_if_full st)
  /\ is_open (after_check c st) = is_open (flush_if_full st)
  /\ cerr (after_check c st) = cerr st ++ complaint c.
Proof.
  assert (E : cerr (flush_if_full st) = cerr st ++ EmptyString)
    by now rewrite append_nil_r, flush_if_full_cerr.
  destruct c; cbn [after_check complaint]; try (repeat split; exact E);
    destruct (Nat.eqb _ _); repeat split; try exact E;
    cbn [report cerr]; now rewrite flush_if_full_cerr.
Qed.

Lemma pushed_facts (r : string) (s : state) :
  (length (dataVector s) < vcapacity s)%nat ->
  dataVector (push_back (set_stringBuffer r s)) = (dataVector s ++ [r])%list
  /\ vcapacity (push_back (set_stringBuffer r s)) = vcapacity s
  /\ traceActive (push_back (set_stringBuffer r s)) = traceActive s
  /\ is_open (push_back (set_stringBuffer r s)) = is_open s
  /\ cerr (push_back (set_stringBuffer r s)) = cerr s.
Proof.
  intros L. unfold push_back. cbn [set_stringBuffer dataVector vcapacity].
  assert (E : Nat.eqb (length (dataVector s)) (vcapacity s) = false)
    by (apply Nat.eqb_neq; lia).
  rewrite E. repeat split.
Qed.

Lemma trace_end_facts (st st' : state) :
  trace_end st = Done st' ->
  dataVector st' = []
  /\ traceActive st' = false
  /\ is_open st' = false
  /\ vcapacity st' = vcapacity st.
Proof.
  unfold trace_end. intros H.
  destruct (back_pop_back (dataVector st)) as [v1|]; [|discriminate].
  cbn [bind] in H.
  destruct (back_pop_back v1) as [v2|]; [|discriminate].
  cbn [bind] in H. apply Done_inj in H. subst st'.
  set (st0 := set_dataVector v2 st).
  destruct (trace_flush_facts st0) as (V & C & _).
  destruct (stream_put_frame (NL ++ "]") (trace_flush st0))
    as (_ & V2 & C2 & _).
  remember (stream_put (NL ++ "]") (trace_flush st0)) as st2 eqn:E2.
  assert (V3 : dataVector st2 = []) by congruence.
  assert (C3 : vcapacity st2 = vcapacity st) by (rewrite C2, C; reflexivity).
  unfold stream_close, is_open.
  destruct (sb_file (traceFile st2)); cbn; repeat split; assumption.
Qed.

Lemma trace_start_facts (TRACE_MAX : nat) (f : string) (ok : bool) (now : Z)
    (st : state) :
  traceActive st = is_open st ->
  let st' := fst (trace_start TRACE_MAX f ok now st) in
  traceActive st' = is_open st'
  /\ dataVector st' = dataVector st
  /\ (traceActive st' = true ->
      vcapacity st' = Nat.max (vcapacity st) TRACE_MAX)
  /\ (traceActive st' = false ->
      vcapacity st' = vcapacity st /\ traceActive st = false).
Proof.
  unfold trace_start, stream_open, stream_put, is_open.
  destruct st as [a v cap [[p|] fl] sb ci t d ce];
    cbn [traceActive traceFile sb_file]; intros ->;
    destruct ok, ci; cbn; repeat split; try discriminate; auto.
Qed.

Lemma Forall_ends_suffix (front v : list string) :
  Forall ends_with_sep (front ++ v) -> Forall ends_with_sep v.
Proof. intros H. now apply Forall_app in H. Qed.

Lemma flush_if_full_suffix (st : state) :
  (exists front, dataVector st = (front ++ dataVector (flush_if_full st))%list)
  /\ vcapacity (flush_if_full st) = vcapacity st
  /\ traceActive (flush_if_full st) = traceActive st
  /\ is_open (flush_if_full st) = is_open st.
Proof.
  unfold flush_if_full.
  destruct (Nat.eqb (length (dataVector st)) (vcapacity st)).
  - destruct (trace_flush_facts st) as (V & C & A & O & _).
    rewrite V, C, A, O. repeat split.
    exists (dataVector st). now rewrite List.app_nil_r.
  - repeat split. now exists [].
Qed.

Lemma pushed_flags (r : string) (s : state) :
  traceActive (push_back (set_stringBuffer r s)) = traceActive s
  /\ is_open (push_back (set_stringBuffer r s)) = is_open s.
Proof.
  destruct (pushed_record r s) as (_ & (A & F & _) & _).
  unfold is_open. now rewrite A, F.
Qed.

(** One call keeps the state well formed. *)
Lemma exec_well_formed (TRACE_MAX : nat) (c : call) (st st' : state) :
  well_formed st ->
  exec TRACE_MAX c st = Done st' ->
  well_formed st'.
Proof.
  intros W H. pose proof W as (O & E & S).
  destruct (is_emit c) eqn:I.
  - destruct (traceActive st) eqn:A.
    + destruct (flush_if_full_suffix st) as ((front & F1) & _ & A1 & O1).
      destruct (after_check_facts c st) as (V2 & _ & A2 & O2 & _).
      pose proof (emit_shape TRACE_MAX c st I A H) as X.
      assert (S1 : Forall ends_with_sep (dataVector (flush_if_full st))).
      { rewrite F1 in S. now apply Forall_ends_suffix in S. }
      destruct (appends c).
      * destruct X as (r & R & ->).
        destruct (pushed_flags r (after_check c st)) as (A3 & O3).
        destruct (pushed_record r (after_check c st)) as (V3 & _).
        split; [|split].
        -- rewrite A3, O3, A2, O2, A1, O1. congruence.
        -- rewrite A3, A2, A1, A. discriminate.
        -- rewrite V3, V2. apply Forall_app. split; [exact S1|].
           constructor; [exact R | constructor].
      * subst st'. split; [|split].
        -- rewrite A2, O2, A1, O1. congruence.
        -- rewrite A2, A1, A. discriminate.
        -- now rewrite V2.
    + rewrite (emit_inactive TRACE_MAX c st I A) in H. apply Done_inj in H.
      now subst st'.
  - destruct c; try discriminate; cbn [exec] in H.
    + apply Done_inj in H.
      destruct (trace_start_facts TRACE_MAX filename os_ok now st O)
        as (O' & V' & _ & CI).
      rewrite H in O', V', CI. split; [|split].
      * exact O'.
      * intros A'. rewrite V'. apply E. now apply CI.
      * now rewrite V'.
    + apply Done_inj in H. subst st'.
      destruct (trace_flush_facts st) as (V & _ & A & O' & _).
      split; [|split]; [congruence | intros _; exact V |].
      rewrite V. constructor.
    + apply trace_end_facts in H as (V & A & O' & _).
      split; [|split]; [congruence | intros _; exact V |].
      rewrite V. constructor.
Qed.

(** One call of a process with a capacity above zero keeps the vector
    within it. *)
Lemma exec_within_capacity (TRACE_MAX : nat) (c : call) (st st' : state) :
  (0 < TRACE_MAX)%nat ->
  well_formed st ->
  within_capacity TRACE_MAX st ->
  exec TRACE_MAX c st = Done st' ->
  within_capacity TRACE_MAX st'.
Proof.
  intros P (O & _ & _) K0 H. pose proof K0 as (L & K & KA).
  destruct (is_emit c) eqn:I.
  - destruct (traceActive st) eqn:A.
    + assert (KT : vcapacity st = TRACE_MAX) by now apply KA.
      destruct (flush_if_full_facts st L ltac:(lia))
        as (L1 & _ & C1 & A1 & _).
      destruct (after_check_facts c st) as (V2 & C2 & A2 & _).
      pose proof (emit_shape TRACE_MAX c st I A H) as X.
      destruct (appends c).
      * destruct X as (r & R & ->).
        destruct (pushed_facts r (after_check c st)) as (V3 & C3 & _);
          [rewrite V2, C2, C1; exact L1|].
        split; [|split].
        -- rewrite V3, C3, V2, C2, C1, length_app. cbn [length]. lia.
        -- rewrite C3, C2, C1. now right.
        -- intros _. now rewrite C3, C2, C1.
      * subst st'. split; [|split].
        -- rewrite V2, C2, C1. lia.
        -- rewrite C2, C1. now right.
        -- intros _. now rewrite C2, C1.
    + rewrite (emit_inactive TRACE_MAX c st I A) in H. apply Done_inj in H.
      now subst st'.
  - destruct c; try discriminate; cbn [exec] in H.
    + apply Done_inj in H.
      destruct (trace_start_facts TRACE_MAX filename os_ok now st O)
        as (_ & V' & CA & CI).
      rewrite H in V', CA, CI. split; [|split].
      * destruct (traceActive st') eqn:A'.
        -- rewrite V', (CA eq_refl). lia.
        -- destruct (CI eq_refl) as [-> _]. now rewrite V'.
      * destruct (traceActive st') eqn:A'.
        -- rewrite (CA eq_refl). right. destruct K as [-> | ->]; lia.
        -- destruct (CI eq_refl) as [-> _]. exact K.
      * intros A'. rewrite (CA A'). destruct K as [-> | ->]; lia.
    + apply Done_inj in H. subst st'.
      destruct (trace_flush_facts st) as (V & C & A & _).
      split; [|split].
      * rewrite V. cbn. lia.
      * now rewrite C.
      * rewrite A, C. exact KA.
    + apply trace_end_facts in H as (V & A & _ & C).
      split; [|split].
      * rewrite V. cbn. lia.
      * now rewrite C.
      * rewrite A. discriminate.
Qed.

Lemma run_well_formed (TRACE_MAX : nat) (cs : list call) :
  forall st st',
    well_formed st ->
    run TRACE_MAX cs st = Done st' ->
    well_formed st'.
Proof.
  induction cs as [|c cs IH]; intros st st' W H; cbn [run] in H.
  - apply Done_inj in H. now subst.
  - destruct (exec TRACE_MAX c st) as [st1|] eqn:E; [|discriminate].
    cbn [bind] in H.
    exact (IH _ _ (@exec_well_formed TRACE_MAX c st st1 W E) H).
Qed.

Lemma run_within_capacity (TRACE_MAX : nat) (cs : list call) :
  (0 < TRACE_MAX)%nat ->
  forall st st',
    well_formed st ->
    within_capacity TRACE_MAX st ->
    run TRACE_MAX cs st = Done st' ->
    within_capacity TRACE_MAX st'.
Proof.
  intros P. induction cs as [|c cs IH]; intros st st' W K H; cbn [run] in H.
  - apply Done_inj in H. now subst.
  - destruct (exec TRACE_MAX c st) as [st1|] eqn:E; [|discriminate].
    cbn [bind] in H.
    exact (IH _ _ (@exec_well_formed TRACE_MAX c st st1 W E)
             (@exec_within_capacity TRACE_MAX c st st1 P W K E) H).
Qed.

Lemma initial_well_formed : well_formed initial.
Proof. split; [|split]; cbn; [reflexivity | reflexivity | constructor]. Qed.

Lemma initial_within_capacity (TRACE_MAX : nat) :
  within_capacity TRACE_MAX initial.
Proof. split; [|split]; cbn; [lia | now left | discriminate]. Qed.

(** ** Calls outside a session *)

(** X1.  While no session is active, emitting calls do nothing at all: any
    sequence of them returns the state it was given, whatever the names and
    arguments are. *)
Theorem emits_outside_a_session_do_nothing :
  forall (TRACE_MAX : nat) (cs : list call) (st : state),
    traceActive st = false ->
    forallb is_emit cs = true ->
    run TRACE_MAX cs st = Done st.
Proof.
  intros TRACE_MAX cs st A. induction cs as [|c cs IH]; intros I;
    [reflexivity|].
  cbn [forallb] in I. apply andb_true_iff in I as [I1 I2].
  cbn [run]. rewrite emit_inactive by assumption. cbn [bind]. now apply IH.
Qed.

Lemma emits_outside_a_session_witness :
  run 4 every_emit initial = Done initial.
Proof.
  apply (@emits_outside_a_session_do_nothing 4 every_emit initial);
    reflexivity.
Defined.

(** ** Invariants of the process *)

Lemma reachable_well_formed (TRACE_MAX : nat) (st : state) :
  reachable TRACE_MAX st -> well_formed st.
Proof.
  intros [cs H]. exact (run_well_formed TRACE_MAX cs initial_well_formed H).
Qed.

(** X2.  In every state a process can reach, the session is active exactly
    when the stream has a file, and the vector is empty whenever the
    session is not active. *)
Theorem session_flag_follows_the_stream :
  forall (TRACE_MAX : nat) (st : state),
    reachable TRACE_MAX st ->
    traceActive st = is_open st
    /\ (traceActive st = false -> dataVector st = []).
Proof.
  intros TRACE_MAX st R.
  destruct (reachable_well_formed R) as (A & B & _). now split.
Qed.

Lemma one_buffered_reachable : reachable 4 one_buffered.
Proof.
  exists [Start "a.json" true 0; InstantGlobal "e0" 1 1000].
  vm_compute. reflexivity.
Defined.

Lemma session_flag_witness :
  traceActive one_buffered = is_open one_buffered
  /\ (traceActive one_buffered = false -> dataVector one_buffered = []).
Proof.
  apply (@session_flag_follows_the_stream 4 one_buffered).
  exact one_buffered_reachable.
Defined.

Lemma strip_separator (v : list string) :
  v <> [] ->
  Forall ends_with_sep v ->
  exists v', bind (back_pop_back v) back_pop_back = Done v'.
Proof.
  intros N F. destruct (exists_last N) as (front & r & ->).
  apply Forall_app in F as [_ F]. inversion F as [|? ? [o ->] _]; subst.
  exists (front ++ [o])%list.
  unfold SEP, NL.
  replace (o ++ "," ++ String "010" EmptyString)
    with ((o ++ ",") ++ String "010" EmptyString) by apply append_assoc.
  rewrite back_pop_back_last. cbn [bind]. apply back_pop_back_last.
Qed.

(** X3.  In every state a process can reach, the end of the session is
    undefined exactly when the vector is empty.  Otherwise every record of
    the vector ends with the separator, the two [pop_back] calls have their
    two characters, and the call completes and leaves an idle state. *)
Theorem end_is_undefined_only_on_an_empty_vector :
  forall (TRACE_MAX : nat) (st : state),
    reachable TRACE_MAX st ->
    (dataVector st = [] -> trace_end st = Undefined)
    /\ (dataVector st <> [] -> exists st', trace_end st = Done st' /\ idle st').
Proof.
  intros TRACE_MAX st R. split; [apply trace_end_empty|].
  intros N. destruct (reachable_well_formed R) as (_ & _ & F).
  destruct (strip_separator N F) as (v' & E).
  assert (X : exists st', trace_end st = Done st').
  { unfold trace_end.
    destruct (back_pop_back (dataVector st)) as [v1|]; [|discriminate].
    cbn [bind] in *. rewrite E. cbn [bind]. eexists. reflexivity. }
  destruct X as (st' & H). exists st'. split; [exact H|].
  apply trace_end_facts in H as (V & A & O & _).
  split; [exact A|]. split; [exact V|].
  unfold is_open in O. now destruct (sb_file (traceFile st')).
Qed.

Lemma end_is_undefined_witness :
  exists st', trace_end one_buffered = Done st' /\ idle st'.
Proof.
  apply (proj2 (@end_is_undefined_only_on_an_empty_vector 4 one_buffered
                  one_buffered_reachable)).
  vm_compute. discriminate.
Defined.

(** X4.  With a capacity above zero, the vector of a process never holds
    more than [TRACE_MAX] records, and its capacity is never anything but
    what [reserve] gave it: no [push_back] reallocates. *)
Theorem vector_stays_within_TRACE_MAX :
  forall (TRACE_MAX : nat) (st : state),
    (0 < TRACE_MAX)%nat ->
    reachable TRACE_MAX st ->
    (length (dataVector st) <= TRACE_MAX)%nat
    /\ (vcapacity st = 0%nat \/ vcapacity st = TRACE_MAX).
Proof.
  intros TRACE_MAX st P [cs H].
  destruct (@run_within_capacity TRACE_MAX cs P initial st initial_well_formed
              (initial_within_capacity TRACE_MAX) H) as (L & K & _).
  split; [|exact K]. destruct K as [K | K]; lia.
Qed.

Lemma vector_stays_within_witness :
  (length (dataVector one_buffered) <= 4)%nat
  /\ (vcapacity one_buffered = 0%nat \/ vcapacity one_buffered = 4%nat).
Proof.
  apply (@vector_stays_within_TRACE_MAX 4 one_buffered);
    [lia | exact one_buffered_reachable].
Defined.

(** ** Start and flush *)

Lemma trace_start_idle :
  forall (TRACE_MAX : nat) (f : string) (now : Z) (st : state),
    idle st ->
    (let r := trace_start TRACE_MAX f false now st in
     snd r = false
     /\ traceActive (fst r) = false
     /\ cerr (fst r) = cerr st ++ open_error f
     /\ dataVector (fst r) = []
     /\ disk (fst r) = disk st
     /\ clockInit (fst r) = clockInit st
     /\ startTime (fst r) = startTime st)
    /\ (let r := trace_start TRACE_MAX f true now st in
        snd r = true
        /\ traceActive (fst r) = true
        /\ cerr (fst r) = cerr st
        /\ dataVector (fst r) = []
        /\ disk (fst r) f = Some ("[" ++ NL)
        /\ same_files_but f (disk st) (disk (fst r))
        /\ (TRACE_MAX <= vcapacity (fst r))%nat
        /\ clockInit (fst r) = true
        /\ startTime (fst r) = session_origin st now).
Proof.
  intros TRACE_MAX f now st (A & V & F).
  destruct st as [a v cap [o fl] sb ci t d ce]. cbn in A, V, F. subst.
  unfold trace_start, stream_open, stream_put, session_origin, same_files_but.
  split.
  - cbn. repeat split.
  - cbn. destruct ci; cbn; repeat split;
      try (unfold file_append, file_content, file_truncate;
           now rewrite !String.eqb_refl);
      try lia;
      intros q N; unfold file_append, file_truncate;
      apply String.eqb_neq in N; now rewrite N.
Qed.



Lemma stream_put_other (s q : string) (st : state) :
  sb_file (traceFile st) <> Some q ->
  disk (stream_put s st) q = disk st q.
Proof.
  intros N. unfold stream_put.
  destruct (ios_fail (traceFile st)); [reflexivity|].
  destruct (sb_file (traceFile st)) as [p|] eqn:E.
  - cbn. unfold file_append.
    destruct (String.eqb q p) eqn:Q; [|reflexivity].
    apply String.eqb_eq in Q. congruence.
  - destruct s; reflexivity.
Qed.

Lemma put_all_other (v : list string) (q : string) (st : state) :
  sb_file (traceFile st) <> Some q ->
  disk (put_all v st) q = disk st q.
Proof.
  revert st. induction v as [|x v IH]; intros st N; [reflexivity|].
  cbn [put_all fold_left]. fold (put_all v (stream_put x st)).
  rewrite IH by now rewrite stream_put_sb_file.
  now apply stream_put_other.
Qed.



(** ** What reaches the file, and when *)






(** ** The scratch buffer and the error stream *)

(** X8.  An emitting call of an active session that has a record to print
    completes when the record and its terminating NUL fit the 1000 bytes of
    the scratch buffer, and is undefined when they do not. *)
Theorem emit_is_defined_iff_the_record_fits :
  forall (TRACE_MAX : nat) (c : call) (st : state) (o : string),
    traceActive st = true ->
    object_of (startTime st) c = Some o ->
    ((String.length (o ++ SEP) < STRING_BUFFER_SIZE)%nat ->
     exists st', exec TRACE_MAX c st = Done st')
    /\ ((STRING_BUFFER_SIZE <= String.length (o ++ SEP))%nat ->
        exec TRACE_MAX c st = Undefined).
Proof.
  intros TRACE_MAX c st o A O. split.
  - intros L. apply Nat.ltb_lt in L.
    destruct (exec_emit TRACE_MAX c st A O L) as (st' & E & _).
    now exists st'.
  - intros L. destruct (exec TRACE_MAX c st) as [st'|] eqn:E; [|reflexivity].
    pose proof (exec_emit_done_fits TRACE_MAX c st A O E) as F.
    unfold fits in F. apply Nat.ltb_lt in F. lia.
Qed.

Lemma emit_is_defined_witness :
  (exists st', exec 4 (InstantGlobal "tick" 1 2000) one_buffered = Done st')
  /\ exec 4 (InstantGlobal long_name 1 2000) one_buffered = Undefined.
Proof.
  split.
  - apply (proj1 (@emit_is_defined_iff_the_record_fits 4
                    (InstantGlobal "tick" 1 2000) one_buffered _
                    eq_refl eq_refl)).
    vm_compute. lia.
  - apply (proj2 (@emit_is_defined_iff_the_record_fits 4
                    (InstantGlobal long_name 1 2000) one_buffered _
                    eq_refl eq_refl)).
    vm_compute. lia.
Defined.

Lemma trace_end_cerr (st st' : state) :
  trace_end st = Done st' -> cerr st' = cerr st.
Proof.
  unfold trace_end. intros H.
  destruct (back_pop_back (dataVector st)) as [v1|]; [|discriminate].
  cbn [bind] in H.
  destruct (back_pop_back v1) as [v2|]; [|discriminate].
  cbn [bind] in H. apply Done_inj in H. subst st'.
  destruct (trace_flush_facts (set_dataVector v2 st)) as (_ & _ & _ & _ & C).
  destruct (stream_put_frame (NL ++ "]") (trace_flush (set_dataVector v2 st)))
    as (_ & _ & _ & _ & _ & _ & C2).
  unfold stream_close.
  destruct (sb_file (traceFile (stream_put (NL ++ "]")
                                  (trace_flush (set_dataVector v2 st)))));
    cbn [set_traceActive set_traceFile cerr]; now rewrite C2, C.
Qed.

(** X9.  What reaches [cerr].  A call other than a start writes to [cerr]
    only when it is a begin, end or counter call with argument lists of
    different sizes made on an active session, and then exactly its one
    message; flushes, ends, calls without argument lists, calls with lists of
    the same size and calls outside a session write nothing. *)
Theorem only_mismatched_lists_are_reported :
  forall (TRACE_MAX : nat) (c : call) (st st' : state),
    not_start c = true ->
    exec TRACE_MAX c st = Done st' ->
    cerr st' = cerr st ++ (if traceActive st then complaint c else EmptyString).
Proof.
  intros TRACE_MAX c st st' N H.
  destruct (is_emit c) eqn:I.
  - destruct (traceActive st) eqn:A.
    + pose proof (emit_shape TRACE_MAX c st I A H) as X.
      destruct (after_check_facts c st) as (_ & _ & _ & _ & C).
      destruct (appends c).
      * destruct X as (r & _ & ->).
        destruct (pushed_record r (after_check c st)) as (_ & _ & C').
        now rewrite C'.
      * now subst st'.
    + rewrite (emit_inactive TRACE_MAX c st I A) in H. apply Done_inj in H.
      subst st'. now rewrite append_nil_r.
  - assert (E : cerr st' = cerr st).
    { destruct c; try discriminate; cbn [exec] in H.
      - apply Done_inj in H. subst st'. apply trace_flush_facts.
      - now apply trace_end_cerr in H. }
    rewrite E. destruct c; try discriminate; cbn [complaint];
      destruct (traceActive st); now rewrite append_nil_r.
Qed.

Lemma only_mismatched_lists_witness :
  cerr (result (exec 4 (EventEndArgs ["ok"; "who"] ["true"] 7 3000)
                  one_buffered))
  = cerr one_buffered ++ mismatch_end.
Proof.
  apply (@only_mismatched_lists_are_reported 4
           (EventEndArgs ["ok"; "who"] ["true"] 7 3000) one_buffered);
    vm_compute; reflexivity.
Defined.

(** ** Sessions one after the other *)

(** A call other than a start leaves alone every file the stream is not
    attached to, and does not attach the stream to another file. *)
Lemma exec_other_files (TRACE_MAX : nat) (c : call) (q : string)
    (st st' : state) :
  not_start c = true ->
  sb_file (traceFile st) <> Some q ->
  exec TRACE_MAX c st = Done st' ->
  disk st' q = disk st q /\ sb_file (traceFile st') <> Some q.
Proof.
  intros N F H.
  assert (G : disk (trace_flush st) q = disk st q
              /\ sb_file (traceFile (trace_flush st)) <> Some q).
  { unfold trace_flush. cbn [set_dataVector disk traceFile].
    rewrite put_all_sb_file. split; [now apply put_all_other | exact F]. }
  destruct (is_emit c) eqn:I.
  - apply (exec_emit_quiet _ _ _ I) in H as (_ & Q2 & _ & _ & Q5).
    rewrite Q2, Q5. unfold settled, flush_if_full.
    destruct (traceActive st); [|now split].
    destruct (Nat.eqb _ _); [exact G | now split].
  - destruct c; try discriminate; cbn [exec] in H.
    + apply Done_inj in H. now subst st'.
    + unfold trace_end in H.
      destruct (back_pop_back (dataVector st)) as [v1|]; [|discriminate].
      cbn [bind] in H.
      destruct (back_pop_back v1) as [v2|]; [|discriminate].
      cbn [bind] in H. apply Done_inj in H. subst st'.
      set (st0 := set_dataVector v2 st).
      assert (F0 : sb_file (traceFile st0) <> Some q) by exact F.
      assert (F1 : sb_file (traceFile (trace_flush st0)) <> Some q).
      { unfold trace_flush. cbn [set_dataVector traceFile].
        now rewrite put_all_sb_file. }
      assert (D1 : disk (trace_flush st0) q = disk st q).
      { unfold trace_flush. cbn [set_dataVector disk].
        now rewrite put_all_other. }
      pose proof (stream_put_other (NL ++ "]") (trace_flush st0) F1) as D2.
      unfold stream_close.
      destruct (sb_file (traceFile (stream_put (NL ++ "]") (trace_flush st0))));
        cbn [set_traceActive set_traceFile disk traceFile sb_file];
        (split; [congruence | discriminate]).
Qed.

Lemma run_other_files (TRACE_MAX : nat) (cs : list call) (q : string) :
  forall st st',
    forallb not_start cs = true ->
    sb_file (traceFile st) <> Some q ->
    run TRACE_MAX cs st = Done st' ->
    disk st' q = disk st q.
Proof.
  induction cs as [|c cs IH]; intros st st' N F H; cbn [run] in H.
  - apply Done_inj in H. now subst.
  - cbn [forallb] in N. apply andb_true_iff in N as [N1 N2].
    destruct (exec TRACE_MAX c st) as [st1|] eqn:E; [|discriminate].
    cbn [bind] in H.
    destruct (@exec_other_files TRACE_MAX c q st st1 N1 F E) as [D F1].
    rewrite (IH _ _ N2 F1 H). exact D.
Qed.

Lemma run_clock_kept (TRACE_MAX : nat) (cs : list call) :
  forall st st',
    clockInit st = true ->
    run TRACE_MAX cs st = Done st' ->
    clockInit st' = true /\ startTime st' = startTime st.
Proof.
  induction cs as [|c cs IH]; intros st st' C H; cbn [run] in H.
  - apply Done_inj in H. now subst.
  - destruct (exec TRACE_MAX c st) as [st1|] eqn:E; [|discriminate].
    cbn [bind] in H. apply exec_clock in E as [[C1 T1]|(C1 & _)];
      [|congruence].
    destruct (IH st1 st' ltac:(congruence) H) as [C2 T2].
    split; congruence.
Qed.

Lemma in_session_not_start (c : call) :
  in_session c = true -> not_start c = true.
Proof. destruct c; cbn; intros H; try discriminate; reflexivity. Qed.

(** A whole session of calls that each append a record. *)
Lemma session_completes (TRACE_MAX : nat) (p : string) (t0 : Z)
    (cs : list call) (st : state) :
  idle st ->
  cs <> [] ->
  forallb appends cs = true ->
  forallb (call_fits (session_origin st t0)) cs = true ->
  exists st',
    run TRACE_MAX (Start p true t0 :: cs ++ [End]) st = Done st'
    /\ disk st' p = Some (unbounded_document (session_origin st t0) cs)
    /\ same_files_but p (disk st) (disk st')
    /\ idle st'
    /\ clockInit st' = true
    /\ startTime st' = session_origin st t0.
Proof.
  intros I N A F.
  assert (IS : forallb in_session cs = true)
    by exact (forallb_impl _ _ _ appends_in_session A).
  destruct (start_session TRACE_MAX p t0 I) as (S0 & _).
  destruct (session_document TRACE_MAX p t0 cs I IS F) as (st1 & E1 & _ & X).
  destruct X as (st2 & E2 & D2 & I2).
  { cbn [run exec bind] in E1.
    exact (@session_run_nonempty TRACE_MAX p _ cs [] _ S0 N A F _ E1). }
  exists st2. split; [exact E2|]. split; [exact D2|].
  destruct (@trace_start_idle TRACE_MAX p t0 st I) as [_ Y]. cbv zeta in Y.
  destruct Y as (_ & _ & _ & _ & _ & O & _ & C & T).
  set (st0 := fst (trace_start TRACE_MAX p true t0 st)) in *.
  assert (R : run TRACE_MAX (cs ++ [End]) st0 = Done st2) by exact E2.
  split; [|split; [exact I2|]].
  - intros q Q. rewrite <- (O q Q).
    apply (@run_other_files TRACE_MAX (cs ++ [End]) q st0 st2); [| |exact R].
    + rewrite forallb_app. cbn.
      now rewrite (forallb_impl _ _ _ in_session_not_start IS).
    + destruct S0 as (_ & F0 & _). fold st0 in F0. rewrite F0. cbn. congruence.
  - destruct (@run_clock_kept TRACE_MAX (cs ++ [End]) st0 st2 C R) as [C2 T2].
    split; [exact C2 | congruence].
Qed.

(** X10.  Two sessions of a process, one after the other and to different
    files, each of calls that append.  Both complete, each file holds the
    document of its own calls, and the process is idle again.  The
    timestamps of both documents count from the same origin, the one of the
    first start: the reading of the second start is not used. *)
Theorem sessions_follow_one_another :
  forall (TRACE_MAX : nat) (p q : string) (t1 t2 : Z) (cs1 cs2 : list call)
         (st : state),
    idle st ->
    p <> q ->
    cs1 <> [] -> cs2 <> [] ->
    forallb appends cs1 = true ->
    forallb appends cs2 = true ->
    forallb (call_fits (session_origin st t1)) cs1 = true ->
    forallb (call_fits (session_origin st t1)) cs2 = true ->
    exists st',
      run TRACE_MAX (both_sessions p q t1 t2 cs1 cs2) st = Done st'
      /\ disk st' p = Some (unbounded_document (session_origin st t1) cs1)
      /\ disk st' q = Some (unbounded_document (session_origin st t1) cs2)
      /\ idle st'.
Proof.
  intros TRACE_MAX p q t1 t2 cs1 cs2 st I PQ N1 N2 A1 A2 F1 F2.
  destruct (session_completes TRACE_MAX p t1 I N1 A1 F1)
    as (st1 & E1 & D1 & _ & I1 & C1 & T1).
  assert (O : session_origin st1 t2 = session_origin st t1).
  { unfold session_origin at 1. now rewrite C1. }
  rewrite <- O in F2.
  destruct (session_completes TRACE_MAX q t2 I1 N2 A2 F2)
    as (st2 & E2 & D2 & S2 & I2 & _).
  exists st2. unfold both_sessions. rewrite run_app, E1. cbn [bind].
  split; [exact E2|]. split; [|split; [|exact I2]].
  - rewrite (S2 p PQ). exact D1.
  - now rewrite D2, O.
Qed.

Lemma sessions_follow_witness :
  exists st',
    run 4 (both_sessions "a.json" "b.json" 0 9000000 six_instants every_emit)
      initial = Done st'
    /\ disk st' "a.json"
       = Some (unbounded_document (session_origin initial 0) six_instants)
    /\ disk st' "b.json"
       = Some (unbounded_document (session_origin initial 0) every_emit)
    /\ idle st'.
Proof.
  apply (@sessions_follow_one_another 4 "a.json" "b.json" 0 9000000
           six_instants every_emit initial).
  - repeat split.
  - discriminate.
  - discriminate.
  - discriminate.
  - reflexivity.
  - reflexivity.
  - vm_compute. reflexivity.
  - vm_compute. reflexivity.
Defined.

(** ** Numbers in the records *)

Lemma to_int_not_nil (z : Z) :
  Z.to_int z <> Decimal.Pos Nil /\ Z.to_int z <> Decimal.Neg Nil.
Proof.
  destruct z as [|p|p]; cbn; split; try discriminate;
    intros H; injection H as H;
    exact (DecimalPos.Unsigned.to_uint_nonnil p H).
Qed.

(** What [%i] prints reads back as the number printed. *)
Lemma read_int_render_int (z : Z) : read_int (render_int z) = Some z.
Proof.
  unfold read_int, render_int.
  destruct (to_int_not_nil z) as [P N].
  rewrite NilZero.isi by assumption. cbn [option_map].
  now rewrite DecimalZ.of_to.
Qed.

Lemma render_int_inj (a b : Z) : render_int a = render_int b -> a = b.
Proof.
  intros H. apply (f_equal read_int) in H.
  rewrite !read_int_render_int in H. congruence.
Qed.

Lemma append_cancel_l (a x y : string) : a ++ x = a ++ y -> x = y.
Proof.
  induction a as [|c a IH]; cbn; intros H; [exact H|].
  injection H as H. now apply IH.
Qed.

Lemma append_cancel_r (s : string) :
  forall x y, x ++ s = y ++ s -> x = y.
Proof.
  assert (L : forall x, String.length (x ++ s) = String.length s ->
                        x = EmptyString).
  { intros x H. rewrite length_append in H. destruct x; [reflexivity|].
    cbn in H. lia. }
  induction x as [|c x IH]; intros y H.
  - symmetry. apply L. cbn in H. now rewrite <- H.
  - destruct y as [|d y].
    + exfalso. cbn [append] in H.
      assert (E : String c x = EmptyString).
      { apply L. change (String c (x ++ s)) with (String c x ++ s) in H.
        now rewrite H. }
      discriminate.
    + cbn in H. injection H as -> H. f_equal. now apply IH.
Qed.

(** X11.  The id of an object record.  Created and destroyed records of the
    same name, thread and time are the same text exactly when the two
    pointers are the same [uintptr_t] value, so distinct objects never share
    an id; and the id printed reads back as that value. *)
Theorem object_ids_identify_the_pointer :
  forall (ph name : string) (p q tid ts : Z),
    (fmt_object ph name p tid ts = fmt_object ph name q tid ts
     <-> cast_uintptr p = cast_uintptr q)
    /\ read_int (render_int (cast_uintptr p)) = Some (p mod 2 ^ 64).
Proof.
  intros ph name p q tid ts. split; [|apply read_int_render_int].
  split.
  - unfold fmt_object. intros H.
    repeat (apply append_cancel_l in H).
    apply append_cancel_r in H. now apply render_int_inj.
  - unfold fmt_object. now intros ->.
Qed.

(** ** Timestamps past the range of [int] *)




(** ** The end of a session *)

(** X13.  The end of a session whose vector is not empty.  The separator of
    the last record is removed, the records of the vector follow in the file
    what earlier flushes wrote, a newline and the closing bracket end
    the array, and the stream is closed: the file holds the opening
    bracket, the objects joined by the separator and the closing bracket,
    and the state is idle with the clock as it was. *)
Theorem end_writes_the_rest_and_closes :
  forall (p : string) (origin : Z) (os : list string) (st : state),
    session p origin (map add_sep os) st ->
    dataVector st <> [] ->
    exists st',
      trace_end st = Done st'
      /\ disk st' p = Some ("[" ++ NL ++ join_objects os ++ NL ++ "]")
      /\ idle st'
      /\ clockInit st' = clockInit st
      /\ startTime st' = startTime st.
Proof.
  intros p origin os st S N.
  destruct (trace_end_session os S N) as (st' & E & D & I & C & T).
  exists st'. repeat split; try assumption; apply I.
Qed.

Lemma one_buffered_session :
  session "a.json" 0
    (map add_sep (objects_of 0 [InstantGlobal "e0" 1 1000])) one_buffered.
Proof.
  split; [reflexivity|]. split; [reflexivity|]. split; [reflexivity|].
  exists []. split; vm_compute; reflexivity.
Defined.

Lemma end_writes_the_rest_witness :
  exists st',
    trace_end one_buffered = Done st'
    /\ disk st' "a.json"
       = Some ("[" ++ NL
                 ++ join_objects (objects_of 0 [InstantGlobal "e0" 1 1000])
                 ++ NL ++ "]")
    /\ idle st'
    /\ clockInit st' = clockInit one_buffered
    /\ startTime st' = startTime one_buffered.
Proof.
  apply (@end_writes_the_rest_and_closes "a.json" 0
           (objects_of 0 [InstantGlobal "e0" 1 1000]) one_buffered).
  - exact one_buffered_session.
  - vm_compute. discriminate.
Defined.

(** ** The argument lists *)

(** The loop prints the pairs in order, separated by a comma and a space. *)
Lemma args_text_join (ns : list string) :
  forall vs,
    length ns = length vs ->
    args_text ns vs = join_with ", " (map pair_text (combine ns vs)).
Proof.
  induction ns as [|n ns IH]; intros [|v vs] L; try discriminate;
    [reflexivity|].
  injection L as L.
  destruct ns as [|n' ns'].
  - destruct vs; [|discriminate].
    change (args_text [n] [v])
      with (quoted n ++ ": " ++ v ++ EmptyString ++ EmptyString).
    change (join_with ", " (map pair_text (combine [n] [v])))
      with (quoted n ++ ": " ++ v).
    now rewrite !append_nil_r.
  - destruct vs as [|v' vs']; [discriminate|].
    change (args_text (n :: n' :: ns') (v :: v' :: vs'))
      with (quoted n ++ ": " ++ v ++ ", " ++ args_text (n' :: ns') (v' :: vs')).
    rewrite (IH (v' :: vs') L).
    change (join_with ", "
              (map pair_text (combine (n :: n' :: ns') (v :: v' :: vs'))))
      with ((quoted n ++ ": " ++ v) ++ ", "
              ++ join_with ", "
                   (map pair_text (combine (n' :: ns') (v' :: vs')))).
    now rewrite !append_assoc.
Qed.

(** X14.  A counter call on an active session, with as many values as
    keys and a record that fits the scratch buffer, appends one record: the
    head with name, phase [C], process, thread and timestamp, then an
    [args] object that lists every key with its value, in the order given
    and separated by a comma and a space, then the separator.  Nothing is
    reported. *)
Theorem counter_record_lists_every_pair :
  forall (TRACE_MAX : nat) (name : string) (ks vs : list string) (tid now : Z)
         (st : state),
    traceActive st = true ->
    length ks = length vs ->
    fits (fmt_counter name tid (ts_at (startTime st) now) ++ ARGS_OPEN
            ++ join_with ", " (map pair_text (combine ks vs)) ++ ARGS_CLOSE)
    = true ->
    exists st',
      exec TRACE_MAX (Counter name ks vs tid now) st = Done st'
      /\ dataVector st'
         = (dataVector (flush_if_full st)
              ++ [(fmt_counter name tid (ts_at (startTime st) now) ++ ARGS_OPEN
                     ++ join_with ", " (map pair_text (combine ks vs))
                     ++ ARGS_CLOSE)%string])%list
      /\ cerr st' = cerr st.
Proof.
  intros TRACE_MAX name ks vs tid now st A L F.
  rewrite <- (args_text_join ks vs L) in *.
  assert (R : (fmt_counter name tid (ts_at (startTime st) now) ++ ARGS_OPEN
                 ++ args_text ks vs ++ "} }") ++ SEP
              = fmt_counter name tid (ts_at (startTime st) now) ++ ARGS_OPEN
                  ++ args_text ks vs ++ ARGS_CLOSE).
  { unfold ARGS_CLOSE. now rewrite !append_assoc. }
  assert (O : object_of (startTime st) (Counter name ks vs tid now)
              = Some (fmt_counter name tid (ts_at (startTime st) now)
                        ++ ARGS_OPEN ++ args_text ks vs ++ "} }")).
  { cbn [object_of]. now rewrite (proj2 (Nat.eqb_eq _ _) L). }
  rewrite <- R in F.
  destruct (exec_emit TRACE_MAX _ st A O F) as (st' & E & V & _).
  exists st'. split; [exact E|]. split; [now rewrite V, R|].
  pose proof (@emit_shape TRACE_MAX (Counter name ks vs tid now) st st'
                eq_refl A E) as X.
  unfold appends in X. cbn [object_of] in X.
  rewrite (proj2 (Nat.eqb_eq _ _) L) in X. destruct X as (r & _ & ->).
  destruct (pushed_record r (after_check (Counter name ks vs tid now) st))
    as (_ & _ & C).
  rewrite C. cbn [after_check]. rewrite (proj2 (Nat.eqb_eq _ _) L).
  apply flush_if_full_cerr.
Qed.

Lemma counter_record_witness :
  exists st',
    exec 4 (Counter "mem" ["rss"; "heap"] ["4096"; "12"] 1 2000) one_buffered
    = Done st'
    /\ dataVector st'
       = (dataVector (flush_if_full one_buffered)
            ++ [(fmt_counter "mem" 1 (ts_at (startTime one_buffered) 2000)
                   ++ ARGS_OPEN
                   ++ join_with ", "
                        (map pair_text
                           (combine ["rss"; "heap"] ["4096"; "12"]))
                   ++ ARGS_CLOSE)%string])%list
    /\ cerr st' = cerr one_buffered.
Proof.
  apply (@counter_record_lists_every_pair 4 "mem" ["rss"; "heap"]
           ["4096"; "12"] 1 2000 one_buffered);
    vm_compute; reflexivity.
Defined.
